(** * Multi-tier full-range AMM pool (muffin_fullrange.py)

    Shallow embedding of [src/muffin_fullrange.py].  numpy float arrays are
    modelled as lists of reals (exact real arithmetic stands for the
    float64 arithmetic of the prototype); boolean masks as [list bool];
    [arr[mask] = expr[mask]] as [masked_set].  The pool is a record that
    [swap] threads explicitly: it returns the pool after the call together
    with either the result dictionary or the exception raised. *)

From Stdlib Require Import Reals Psatz List Bool Arith Lia.
Import ListNotations.
Open Scope R_scope.

(** ** numpy helpers *)

(** [x >= 0] and [x > 0] on floats. *)
Definition Rge0b (x : R) : bool := if Rle_dec 0 x then true else false.
Definition Rgt0b (x : R) : bool := if Rlt_dec 0 x then true else false.

(** element-wise binary operation on equally shaped arrays *)
Fixpoint vzip {A B C : Type} (f : A -> B -> C) (xs : list A) (ys : list B)
  : list C :=
  match xs, ys with
  | x :: xs', y :: ys' => f x y :: vzip f xs' ys'
  | _, _ => []
  end.

Fixpoint vzip3 {A B C D : Type} (f : A -> B -> C -> D)
  (xs : list A) (ys : list B) (zs : list C) : list D :=
  match xs, ys, zs with
  | x :: xs', y :: ys', z :: zs' => f x y z :: vzip3 f xs' ys' zs'
  | _, _, _ => []
  end.

(** [a[mask] = v[mask]]: the entries of [a] selected by [mask] are
    overwritten by those of [v], the others are kept. *)
Fixpoint masked_set (mask : list bool) (v a : list R) : list R :=
  match mask, v, a with
  | b :: mask', x :: v', y :: a' =>
      (if b then x else y) :: masked_set mask' v' a'
  | _, _, _ => a
  end.

(** [np.sum(xs[mask])] *)
Fixpoint msum (mask : list bool) (xs : list R) : R :=
  match mask, xs with
  | b :: mask', x :: xs' => (if b then x else 0) + msum mask' xs'
  | _, _ => 0
  end.

(** [np.all(xs[mask] >= 0)] *)
Fixpoint mall_nonneg (mask : list bool) (xs : list R) : bool :=
  match mask, xs with
  | b :: mask', x :: xs' => (negb b || Rge0b x) && mall_nonneg mask' xs'
  | _, _ => true
  end.

(** [mask & (xs >= 0)] *)
Definition mask_and (mask : list bool) (xs : list R) : list bool :=
  vzip andb mask (map Rge0b xs).

(** number of [True] entries of a mask *)
Fixpoint count_true (mask : list bool) : nat :=
  match mask with
  | [] => O
  | b :: mask' => (if b then 1 else 0) + count_true mask'
  end%nat.

(** [xs[~mask] = 0] *)
Definition zero_inactive (mask : list bool) (xs : list R) : list R :=
  masked_set (map negb mask) (repeat 0 (length xs)) xs.

(** ** Pool state *)

Record Pool := mkPool {
  size : nat;
  liquidity_arr : list R;
  sqrt_p_arr : list R;
  sqrt_gamma_arr : list R;
  fee0_growth_arr : list R;
  fee1_growth_arr : list R
}.

(** [Pool.__init__]: no argument is checked. *)
Definition pool_init (liquidity_arr sqrt_gamma_arr : list R) (sqrt_p : R)
  : Pool :=
  {| size := length liquidity_arr;
     sqrt_gamma_arr := sqrt_gamma_arr;
     liquidity_arr := liquidity_arr;
     sqrt_p_arr := repeat sqrt_p (length liquidity_arr);
     fee0_growth_arr := repeat 0 (length liquidity_arr);
     fee1_growth_arr := repeat 0 (length liquidity_arr) |}.

(** ** Price algebra *)

Definition calc_sqrt_p_from_amt (is_token0 : bool) (sqrt_p0 liquidity amt : R)
  : R :=
  if is_token0
  then (liquidity * sqrt_p0) / (liquidity + (amt * sqrt_p0))
  else sqrt_p0 + (amt / liquidity).

Definition calc_amt_from_sqrt_p (is_token0 : bool) (sqrt_p0 sqrt_p1 liquidity : R)
  : R :=
  if is_token0
  then liquidity * (sqrt_p0 - sqrt_p1) / (sqrt_p0 * sqrt_p1)
  else liquidity * (sqrt_p1 - sqrt_p0).

(** ** Tier allocator ([Pool._calc_tier_amts_in]) *)

Section Allocator.

Variables (lsg res : list R) (amount : R).

(** one pass of line 92:
    [amts[mask] = lsg[mask] * (amount + sum(res[mask])) / sum(lsg[mask]) - res[mask]] *)
Definition alloc_body (mask : list bool) (amts : list R) : list R :=
  let s := msum mask res in
  let w := msum mask lsg in
  masked_set mask (vzip (fun l r => l * (amount + s) / w - r) lsg res) amts.

(** The [while True] loop of lines 91-96.  [fuel] bounds the number of
    passes; the result carries the number of passes executed.  [None]
    (fuel exhausted) is shown below never to happen with [fuel] larger
    than the number of active tiers. *)
Fixpoint alloc_loop (fuel : nat) (mask : list bool) (amts : list R)
  : option (list R * list bool * nat) :=
  match fuel with
  | O => None
  | S fuel' =>
      let amts' := alloc_body mask amts in
      if mall_nonneg mask amts'
      then Some (zero_inactive mask amts', mask, 1%nat)
      else match alloc_loop fuel' (mask_and mask amts') amts' with
           | Some (a, m, k) => Some (a, m, S k)
           | None => None
           end
  end.

(** The (mask, amts) pairs the loop enters a pass with, starting from
    [mask = np.full(n, True)], [amts = np.zeros(n)]. *)
Inductive alloc_visited (n : nat) : list bool -> list R -> Prop :=
| av_init : alloc_visited n (repeat true n) (repeat 0 n)
| av_next mask amts :
    alloc_visited n mask amts ->
    mall_nonneg mask (alloc_body mask amts) = false ->
    alloc_visited n (mask_and mask (alloc_body mask amts))
                    (alloc_body mask amts).

End Allocator.

Inductive error := AssertionError | ShapeError | NonTermination.

Inductive result (A : Type) :=
| Ok (a : A)
| Err (e : error).
Arguments Ok {A} a.
Arguments Err {A} e.

(** [gamma = self.sqrt_gamma_arr ** 2] *)
Definition tier_gamma (p : Pool) : list R :=
  map (fun g => g ^ 2) (sqrt_gamma_arr p).

(** [lsg = self.liquidity_arr / self.sqrt_gamma_arr] *)
Definition tier_lsg (p : Pool) : list R :=
  vzip Rdiv (liquidity_arr p) (sqrt_gamma_arr p).

(** [res] of lines 81-82 *)
Definition tier_res (p : Pool) (is_token0 : bool) : list R :=
  if is_token0
  then vzip Rdiv (vzip Rdiv (liquidity_arr p) (sqrt_p_arr p)) (tier_gamma p)
  else vzip Rdiv (vzip Rmult (liquidity_arr p) (sqrt_p_arr p)) (tier_gamma p).

Definition calc_tier_amts_in (p : Pool) (is_token0 : bool) (amount : R)
  : result (list R * list bool) :=
  if Rge0b amount then
    match alloc_loop (tier_lsg p) (tier_res p is_token0) amount
            (S (size p)) (repeat true (size p)) (repeat 0 (size p)) with
    | Some (amts, mask, _) => Ok (amts, mask)
    | None => Err NonTermination
    end
  else Err AssertionError.

(** ** Swap *)

Record SwapResult := mkSwapResult {
  amt_in : R;
  amt_out : R;
  fee_amt : R;
  fee_bps : R;
  amts_in : list R;
  amts_out : list R;
  fee_amts : list R
}.

(** All per-tier arrays have [size] entries.  numpy raises (a broadcast
    [ValueError] at line 80 or a boolean-index [IndexError] at lines 42
    and 92) when [sqrt_gamma_arr] and [liquidity_arr] differ in length;
    the other arrays are built with [size] entries by [__init__]. *)
Definition shape_okb (p : Pool) : bool :=
  Nat.eqb (length (liquidity_arr p)) (size p) &&
  Nat.eqb (length (sqrt_p_arr p)) (size p) &&
  Nat.eqb (length (sqrt_gamma_arr p)) (size p) &&
  Nat.eqb (length (fee0_growth_arr p)) (size p) &&
  Nat.eqb (length (fee1_growth_arr p)) (size p).

Definition swap (p : Pool) (is_token0 : bool) (amt_desired : R)
  : Pool * result SwapResult :=
  let is_exact_in := Rgt0b amt_desired in
  if negb is_exact_in then (p, Err AssertionError) else
  if negb (shape_okb p) then (p, Err ShapeError) else
  match calc_tier_amts_in p is_token0 amt_desired with
  | Err e => (p, Err e)
  | Ok (amts_in, mask) =>
      let zeros := repeat 0 (size p) in
      let gamma := tier_gamma p in
      let amts_in_after_fee := masked_set mask (vzip Rmult amts_in gamma) zeros in
      let sqrt_p_new :=
        masked_set mask
          (vzip3 (calc_sqrt_p_from_amt is_token0)
             (sqrt_p_arr p) (liquidity_arr p) amts_in_after_fee) zeros in
      let amts_out :=
        masked_set mask
          (vzip3 (calc_amt_from_sqrt_p (negb is_token0))
             (sqrt_p_arr p) sqrt_p_new (liquidity_arr p)) zeros in
      let fee_amts := masked_set mask (vzip Rminus amts_in amts_in_after_fee) zeros in
      let sqrt_p_arr' := masked_set mask sqrt_p_new (sqrt_p_arr p) in
      let bump (g : list R) :=
        masked_set mask (vzip Rplus g (vzip Rdiv fee_amts (liquidity_arr p))) g in
      let p' :=
        if Bool.eqb is_token0 is_exact_in
        then {| size := size p; liquidity_arr := liquidity_arr p;
                sqrt_p_arr := sqrt_p_arr'; sqrt_gamma_arr := sqrt_gamma_arr p;
                fee0_growth_arr := bump (fee0_growth_arr p);
                fee1_growth_arr := fee1_growth_arr p |}
        else {| size := size p; liquidity_arr := liquidity_arr p;
                sqrt_p_arr := sqrt_p_arr'; sqrt_gamma_arr := sqrt_gamma_arr p;
                fee0_growth_arr := fee0_growth_arr p;
                fee1_growth_arr := bump (fee1_growth_arr p) |} in
      (p', Ok {| amt_in := msum mask amts_in;
                 amt_out := msum mask amts_out;
                 fee_amt := msum mask fee_amts;
                 fee_bps := msum mask fee_amts / msum mask amts_in * 10000;
                 amts_in := amts_in;
                 amts_out := amts_out;
                 fee_amts := fee_amts |})
  end.

(** ** Validity of a pool state *)

Definition shape_ok (p : Pool) : Prop :=
  length (liquidity_arr p) = size p /\ length (sqrt_p_arr p) = size p /\
  length (sqrt_gamma_arr p) = size p /\ length (fee0_growth_arr p) = size p /\
  length (fee1_growth_arr p) = size p.

(** per-tier invariants of the data model, for every tier present *)
Definition tiers_ok (p : Pool) : Prop :=
  shape_ok p /\
  Forall (fun l => 0 < l) (liquidity_arr p) /\
  Forall (fun s => 0 < s) (sqrt_p_arr p) /\
  Forall (fun g => 0 < g <= 1) (sqrt_gamma_arr p).

(** ... and [tier_count] positive *)
Definition pool_valid (p : Pool) : Prop := tiers_ok p /\ (1 <= size p)%nat.

Definition init_args_ok (liq sg : list R) (sp : R) : Prop :=
  length liq = length sg /\ Forall (fun l => 0 < l) liq /\
  Forall (fun g => 0 < g <= 1) sg /\ 0 < sp.

(** pools reachable by successful swaps *)
Inductive swaps_from (p : Pool) : Pool -> Prop :=
| sf_refl : swaps_from p p
| sf_step q q' tok a r :
    swaps_from p q -> swap q tok a = (q', Ok r) -> swaps_from p q'.

(** [np.sum(xs)] *)
Definition rsum (xs : list R) : R := fold_right Rplus 0 xs.

(** [Pool.prices]: [self.sqrt_p_arr ** 2] *)
Definition prices (p : Pool) : list R := map (fun s => s ^ 2) (sqrt_p_arr p).

(** [Pool.price]: the liquidity-weighted combined price *)
Definition price (p : Pool) : R :=
  rsum (vzip Rmult (prices p) (liquidity_arr p)) / rsum (liquidity_arr p).

(** the constructor's default arguments, and a one-tier pool *)
Definition pool_default : Pool := pool_init [10000; 10000] [0.9985; 0.9997] 1.
Definition pool_one : Pool := pool_init [10000] [0.9985] 1.

(** ** Lemmas on the array helpers *)

Lemma Rge0b_spec (x : R) : Rge0b x = true <-> 0 <= x.
Proof. unfold Rge0b; destruct (Rle_dec 0 x); split; intros; auto; lra. Qed.

Lemma Rgt0b_spec (x : R) : Rgt0b x = true <-> 0 < x.
Proof. unfold Rgt0b; destruct (Rlt_dec 0 x); split; intros; auto; lra. Qed.

Lemma vzip_length {A B C} (f : A -> B -> C) xs ys :
  length (vzip f xs ys) = Nat.min (length xs) (length ys).
Proof. revert ys; induction xs; destruct ys; simpl; auto. Qed.

Lemma vzip3_length {A B C D} (f : A -> B -> C -> D) xs ys zs :
  length (vzip3 f xs ys zs) = Nat.min (length xs) (Nat.min (length ys) (length zs)).
Proof. revert ys zs; induction xs; destruct ys, zs; simpl; auto. Qed.

Lemma vzip_nth {A B C} (f : A -> B -> C) xs ys i da db dc :
  (i < length xs)%nat -> (i < length ys)%nat ->
  nth i (vzip f xs ys) dc = f (nth i xs da) (nth i ys db).
Proof.
  revert ys i; induction xs; destruct ys, i; simpl; intros; try lia; auto.
  apply IHxs; lia.
Qed.

Lemma vzip3_nth {A B C D} (f : A -> B -> C -> D) xs ys zs i da db dc dd :
  (i < length xs)%nat -> (i < length ys)%nat -> (i < length zs)%nat ->
  nth i (vzip3 f xs ys zs) dd = f (nth i xs da) (nth i ys db) (nth i zs dc).
Proof.
  revert ys zs i; induction xs; destruct ys, zs, i; simpl; intros; try lia; auto.
  apply IHxs; lia.
Qed.

Lemma masked_set_length m v a : length (masked_set m v a) = length a.
Proof. revert v a; induction m as [|b m IH]; destruct v, a; simpl; auto. Qed.

Lemma masked_set_nth m v a i :
  length m = length a -> length v = length a ->
  nth i (masked_set m v a) 0 = if nth i m false then nth i v 0 else nth i a 0.
Proof.
  revert v a i; induction m as [|b m IH]; destruct v, a, i; simpl; intros;
    try discriminate; auto.
Qed.

Lemma msum_masked_set m v a :
  length m = length a -> length v = length a ->
  msum m (masked_set m v a) = msum m v.
Proof.
  revert v a; induction m as [|b m IH]; destruct v, a; simpl; intros;
    try discriminate; auto.
  rewrite IH by lia; destruct b; reflexivity.
Qed.

Lemma msum_affine m ls rs k w :
  msum m (vzip (fun l r => l * k / w - r) ls rs) =
  (msum m (vzip (fun l r => l) ls rs)) * k / w - msum m (vzip (fun l r => r) ls rs).
Proof.
  revert ls rs; induction m as [|b m IH]; destruct ls, rs; simpl; try (unfold Rdiv; ring).
  rewrite IH; destruct b; unfold Rdiv; ring.
Qed.

Lemma vzip_fst {B} (xs : list R) (ys : list B) :
  length xs = length ys -> vzip (fun l _ => l) xs ys = xs.
Proof. revert ys; induction xs; destruct ys; simpl; intros; try discriminate; f_equal; auto. Qed.

Lemma vzip_snd {A} (xs : list A) (ys : list R) :
  length xs = length ys -> vzip (fun _ r => r) xs ys = ys.
Proof. revert ys; induction xs; destruct ys; simpl; intros; try discriminate; f_equal; auto. Qed.

Lemma msum_pos m ls :
  Forall (fun x => 0 < x) ls -> length m = length ls -> (0 < count_true m)%nat ->
  0 < msum m ls.
Proof.
  revert ls; induction m as [|b m IH]; destruct ls as [|x ls]; simpl; intros Hf Hl Hc;
    try lia; inversion Hf; subst.
  assert (0 <= msum m ls).
  { clear -H2 Hl. revert ls H2 Hl; induction m as [|c m IH]; destruct ls; simpl;
      intros Hf Hl; try lra; inversion Hf; subst; specialize (IH ls H2 ltac:(lia));
      destruct c; lra. }
  destruct b; simpl in Hc.
  - lra.
  - specialize (IH ls H2 ltac:(lia) Hc); lra.
Qed.

Lemma mask_and_length m xs : length (mask_and m xs) = Nat.min (length m) (length xs).
Proof. unfold mask_and; rewrite vzip_length, length_map; reflexivity. Qed.

Lemma count_mask_and_le m xs : (count_true (mask_and m xs) <= count_true m)%nat.
Proof.
  unfold mask_and; revert xs; induction m as [|b m IH]; destruct xs; simpl; try lia.
  specialize (IH xs); destruct b, (Rge0b r); simpl; lia.
Qed.

(** a non-terminal pass discards at least one active tier *)
Lemma count_mask_and_lt m xs :
  mall_nonneg m xs = false -> (count_true (mask_and m xs) < count_true m)%nat.
Proof.
  unfold mask_and; revert xs; induction m as [|b m IH]; destruct xs; simpl;
    try discriminate; intros H.
  pose proof (count_mask_and_le m xs) as Hle; unfold mask_and in Hle.
  destruct b, (Rge0b r); simpl in *; try discriminate;
    try (specialize (IH xs H); lia); lia.
Qed.

(** if all active entries are negative their sum is negative *)
Lemma msum_all_negative m xs :
  length m = length xs -> count_true (mask_and m xs) = 0%nat ->
  msum m xs <= 0 /\ ((0 < count_true m)%nat -> msum m xs < 0).
Proof.
  unfold mask_and; revert xs; induction m as [|b m IH]; destruct xs as [|x xs]; simpl;
    intros Hl H; try discriminate; try (split; [lra | lia]).
  destruct (IH xs) as [H1 H2]; [lia | destruct (b && Rge0b x); simpl in H; lia |].
  destruct b; simpl in *.
  - assert (x < 0).
    { destruct (Rge0b x) eqn:E; simpl in H; try lia.
      unfold Rge0b in E; destruct (Rle_dec 0 x); try discriminate; lra. }
    split; intros; lra.
  - rewrite Rplus_0_l; split; auto.
Qed.

(** some active entry survives when the active entries sum to [>= 0] *)
Lemma mask_and_nonempty m xs :
  length m = length xs ->
  (0 < count_true m)%nat -> 0 <= msum m xs -> (0 < count_true (mask_and m xs))%nat.
Proof.
  intros Hl Hc Hs; destruct (count_true (mask_and m xs)) eqn:E; [|lia].
  destruct (msum_all_negative m xs Hl E) as [_ H]; specialize (H Hc); lra.
Qed.

Lemma mall_nonneg_nth m xs i :
  mall_nonneg m xs = true -> nth i m false = true -> (i < length xs)%nat ->
  0 <= nth i xs 0.
Proof.
  revert xs i; induction m as [|b m IH]; destruct xs, i; simpl; intros H Hi Hl;
    try discriminate; try lia; apply andb_true_iff in H as [H1 H2].
  - subst; simpl in H1; apply Rge0b_spec; auto.
  - apply (IH xs i H2 Hi); lia.
Qed.

Lemma mall_nonneg_char m xs :
  length m = length xs ->
  (forall i, nth i m false = true -> (i < length xs)%nat -> 0 <= nth i xs 0) ->
  mall_nonneg m xs = true.
Proof.
  revert xs; induction m as [|b m IH]; destruct xs as [|x xs]; simpl; intros Hl H;
    try discriminate; auto.
  apply andb_true_iff; split.
  - destruct b; simpl; auto. apply Rge0b_spec, (H 0%nat); simpl; auto; lia.
  - apply IH; [lia|]. intros i Hi Hil; apply (H (S i)); simpl; auto; lia.
Qed.

Lemma count_repeat_true n : count_true (repeat true n) = n.
Proof. induction n; simpl; lia. Qed.

Lemma zero_inactive_nth m xs i :
  length m = length xs ->
  nth i (zero_inactive m xs) 0 = if nth i m false then nth i xs 0 else 0.
Proof.
  unfold zero_inactive; revert xs i; induction m as [|b m IH];
    destruct xs as [|x xs], i; simpl; intros Hl; try discriminate; auto.
  destruct b; reflexivity.
Qed.

Lemma zero_inactive_length m xs : length (zero_inactive m xs) = length xs.
Proof. apply masked_set_length. Qed.

Lemma msum_zero_inactive m xs :
  length m = length xs -> msum m (zero_inactive m xs) = msum m xs.
Proof.
  unfold zero_inactive; revert xs; induction m as [|b m IH]; destruct xs; simpl;
    intros; try discriminate; auto.
  rewrite IH by lia; destruct b; reflexivity.
Qed.

(** ** The allocator loop *)

Section AllocatorFacts.

Variables (lsg res : list R) (amount : R) (n : nat).
Hypothesis Hlsg : length lsg = n.
Hypothesis Hres : length res = n.

Lemma alloc_body_length m a : length (alloc_body lsg res amount m a) = length a.
Proof. apply masked_set_length. Qed.

Lemma alloc_visited_length m a :
  alloc_visited lsg res amount n m a -> length m = n /\ length a = n.
Proof.
  induction 1 as [|m a H [Hm Ha] _].
  - rewrite !repeat_length; auto.
  - rewrite mask_and_length, alloc_body_length; lia.
Qed.

(** entry [i] after a pass *)
Lemma alloc_body_nth m a i :
  length m = n -> length a = n ->
  nth i (alloc_body lsg res amount m a) 0 =
  if nth i m false
  then nth i lsg 0 * (amount + msum m res) / msum m lsg - nth i res 0
  else nth i a 0.
Proof.
  intros Hm Ha; unfold alloc_body.
  rewrite masked_set_nth by (rewrite ?vzip_length; lia).
  destruct (nth i m false) eqn:E; auto.
  assert (i < n)%nat.
  { destruct (Nat.lt_ge_cases i n); auto.
    rewrite nth_overflow in E by lia; discriminate. }
  rewrite (vzip_nth _ _ _ _ 0 0) by lia; reflexivity.
Qed.

Hypothesis Hpos : Forall (fun l => 0 < l) lsg.

(** the active entries of a pass sum to [amount] *)
Lemma alloc_body_sum m a :
  length m = n -> length a = n -> (0 < count_true m)%nat ->
  msum m (alloc_body lsg res amount m a) = amount.
Proof.
  intros Hm Ha Hc; unfold alloc_body.
  rewrite msum_masked_set by (rewrite ?vzip_length; lia).
  rewrite msum_affine, vzip_fst, vzip_snd by lia.
  assert (0 < msum m lsg) by (apply msum_pos; auto; lia).
  field; lra.
Qed.

Hypothesis Hamount : 0 <= amount.

(** with at least one tier, every pass has an active tier *)
Lemma alloc_visited_nonempty m a :
  (1 <= n)%nat -> alloc_visited lsg res amount n m a -> (0 < count_true m)%nat.
Proof.
  intros Hn; induction 1 as [|m a H IH _].
  - rewrite count_repeat_true; lia.
  - destruct (alloc_visited_length m a H) as [Hm Ha].
    apply mask_and_nonempty.
    + rewrite alloc_body_length; lia.
    + apply IH.
    + rewrite alloc_body_sum; auto.
Qed.

End AllocatorFacts.

Section LoopFacts.

Variables (lsg res : list R) (amount : R).

(** with more fuel than active tiers the loop stops *)
Lemma alloc_loop_terminates fuel m a :
  (count_true m < fuel)%nat ->
  exists r, alloc_loop lsg res amount fuel m a = Some r.
Proof.
  revert m a; induction fuel as [|fuel IH]; intros m a Hf; [lia|].
  simpl. destruct (mall_nonneg m (alloc_body lsg res amount m a)) eqn:E.
  - eexists; reflexivity.
  - pose proof (count_mask_and_lt _ _ E).
    destruct (IH (mask_and m (alloc_body lsg res amount m a))
                 (alloc_body lsg res amount m a)) as [[[r mk] k] Hr]; [lia|].
    rewrite Hr; eexists; reflexivity.
Qed.

(** the result does not depend on the fuel once it suffices *)
Lemma alloc_loop_fuel fuel m a r mk k :
  alloc_loop lsg res amount fuel m a = Some (r, mk, k) ->
  (k <= fuel)%nat /\
  forall fuel', (k <= fuel')%nat -> alloc_loop lsg res amount fuel' m a = Some (r, mk, k).
Proof.
  revert m a k; induction fuel as [|fuel IH]; intros m a k H; [discriminate|].
  simpl in H. destruct (mall_nonneg m (alloc_body lsg res amount m a)) eqn:E.
  - injection H as <- <- <-; split; [lia|].
    intros [|f'] Hf; [lia|]; simpl; rewrite E; reflexivity.
  - destruct (alloc_loop lsg res amount fuel _ _) as [[[r' mk'] k']|] eqn:Hr;
      [|discriminate].
    injection H as <- <- <-.
    destruct (IH _ _ _ Hr) as [Hk Hall]; split; [lia|].
    intros [|f'] Hf; [lia|]; simpl; rewrite E, (Hall f') by lia; reflexivity.
Qed.

(** the loop returns the state of its last pass *)
Lemma alloc_loop_result n fuel m a r mk k :
  alloc_visited lsg res amount n m a ->
  alloc_loop lsg res amount fuel m a = Some (r, mk, k) ->
  exists m0 a0, alloc_visited lsg res amount n m0 a0 /\ mk = m0 /\
    r = zero_inactive m0 (alloc_body lsg res amount m0 a0) /\
    mall_nonneg m0 (alloc_body lsg res amount m0 a0) = true.
Proof.
  revert m a k; induction fuel as [|fuel IH]; intros m a k Hv H; [discriminate|].
  simpl in H. destruct (mall_nonneg m (alloc_body lsg res amount m a)) eqn:E.
  - injection H as <- <- <-; exists m, a; auto.
  - destruct (alloc_loop lsg res amount fuel _ _) as [[[r' mk'] k']|] eqn:Hr;
      [|discriminate].
    injection H as <- <- <-.
    exact (IH _ _ _ (av_next _ _ _ _ _ _ Hv E) Hr).
Qed.

(** with at least one tier and valid weights, no more passes than active tiers *)
Lemma alloc_loop_iterations n fuel m a r mk k :
  length lsg = n -> length res = n -> Forall (fun l => 0 < l) lsg -> 0 <= amount ->
  (1 <= n)%nat ->
  alloc_visited lsg res amount n m a ->
  alloc_loop lsg res amount fuel m a = Some (r, mk, k) ->
  (1 <= k <= count_true m)%nat.
Proof.
  intros Hl Hr Hp Ha Hn.
  revert m a k; induction fuel as [|fuel IH]; intros m a k Hv H; [discriminate|].
  pose proof (alloc_visited_nonempty _ _ _ _ Hl Hr Hp Ha m a Hn Hv) as Hc.
  simpl in H. destruct (mall_nonneg m (alloc_body lsg res amount m a)) eqn:E.
  - injection H as <- <- <-; lia.
  - destruct (alloc_loop lsg res amount fuel _ _) as [[[r' mk'] k']|] eqn:Hr';
      [|discriminate].
    injection H as <- <- <-.
    pose proof (count_mask_and_lt _ _ E).
    specialize (IH _ _ _ (av_next _ _ _ _ _ _ Hv E) Hr'); lia.
Qed.

End LoopFacts.

(** ** Pool-level facts *)

Lemma shape_okb_spec p : shape_okb p = true <-> shape_ok p.
Proof.
  unfold shape_okb, shape_ok; rewrite !andb_true_iff, !Nat.eqb_eq; tauto.
Qed.

Lemma Forall_vzip {A B C} (P : A -> Prop) (Q : B -> Prop) (S : C -> Prop)
  (f : A -> B -> C) xs ys :
  Forall P xs -> Forall Q ys -> (forall x y, P x -> Q y -> S (f x y)) ->
  Forall S (vzip f xs ys).
Proof.
  intros Hx; revert ys; induction Hx; destruct ys; simpl; intros Hy Hf; auto.
  inversion Hy; subst; constructor; auto.
Qed.

Lemma Forall_nth_R (P : R -> Prop) xs i :
  Forall P xs -> (i < length xs)%nat -> P (nth i xs 0).
Proof. intros H Hi; apply Forall_nth; auto. Qed.

Lemma tier_lsg_length p : shape_ok p -> length (tier_lsg p) = size p.
Proof. intros (H1 & H2 & H3 & _); unfold tier_lsg; rewrite vzip_length; lia. Qed.

Lemma tier_res_length p tok : shape_ok p -> length (tier_res p tok) = size p.
Proof.
  intros (H1 & H2 & H3 & _); unfold tier_res, tier_gamma.
  destruct tok; rewrite !vzip_length, length_map; lia.
Qed.

Lemma tier_lsg_pos p : tiers_ok p -> Forall (fun l => 0 < l) (tier_lsg p).
Proof.
  intros (_ & HL & _ & HG); unfold tier_lsg.
  apply (Forall_vzip _ _ _ _ _ _ HL HG); intros x y Hx Hy.
  apply Rdiv_lt_0_compat; lra.
Qed.

Lemma pool_visited_length p tok amount m a :
  shape_ok p -> alloc_visited (tier_lsg p) (tier_res p tok) amount (size p) m a ->
  length m = size p /\ length a = size p.
Proof.
  intros Hs; apply alloc_visited_length;
    [apply tier_lsg_length | apply tier_res_length]; auto.
Qed.

Lemma pool_visited_nonempty p tok amount m a :
  shape_ok p -> Forall (fun l => 0 < l) (tier_lsg p) -> (1 <= size p)%nat ->
  0 <= amount ->
  alloc_visited (tier_lsg p) (tier_res p tok) amount (size p) m a ->
  (0 < count_true m)%nat.
Proof.
  intros Hs Hp Hn Ha.
  apply alloc_visited_nonempty; auto;
    [apply tier_lsg_length | apply tier_res_length]; auto.
Qed.

Lemma pool_body_sum p tok amount m a :
  shape_ok p -> Forall (fun l => 0 < l) (tier_lsg p) -> (1 <= size p)%nat ->
  0 <= amount ->
  alloc_visited (tier_lsg p) (tier_res p tok) amount (size p) m a ->
  msum m (alloc_body (tier_lsg p) (tier_res p tok) amount m a) = amount.
Proof.
  intros Hs Hp Hn Ha Hvis.
  destruct (pool_visited_length p tok amount m a Hs Hvis).
  apply alloc_body_sum with (n := size p); auto;
    [apply tier_lsg_length | apply tier_res_length |
     apply (pool_visited_nonempty p tok amount m a)]; auto.
Qed.

Lemma tier_gamma_nth p i :
  (i < size p)%nat -> shape_ok p ->
  nth i (tier_gamma p) 0 = nth i (sqrt_gamma_arr p) 0 ^ 2.
Proof.
  intros Hi (_ & _ & H3 & _); unfold tier_gamma.
  rewrite (nth_indep _ 0 (0 ^ 2)) by (rewrite length_map; lia).
  apply (map_nth (fun g => g ^ 2)).
Qed.

(** the result of the allocator: the last pass, with inactive tiers zeroed *)
Lemma calc_tier_amts_in_spec p tok amount :
  shape_ok p -> 0 <= amount ->
  exists amts mask k a0,
    calc_tier_amts_in p tok amount = Ok (amts, mask) /\
    alloc_loop (tier_lsg p) (tier_res p tok) amount (S (size p))
      (repeat true (size p)) (repeat 0 (size p)) = Some (amts, mask, k) /\
    alloc_visited (tier_lsg p) (tier_res p tok) amount (size p) mask a0 /\
    amts = zero_inactive mask (alloc_body (tier_lsg p) (tier_res p tok) amount mask a0) /\
    mall_nonneg mask (alloc_body (tier_lsg p) (tier_res p tok) amount mask a0) = true.
Proof.
  intros Hs Ha.
  destruct (alloc_loop_terminates (tier_lsg p) (tier_res p tok) amount (S (size p))
              (repeat true (size p)) (repeat 0 (size p))) as [[[amts mask] k] Hl].
  { rewrite count_repeat_true; lia. }
  destruct (alloc_loop_result _ _ _ (size p) _ _ _ _ _ _ (av_init _ _ _ _) Hl)
    as (m0 & a0 & Hv & -> & -> & Hall).
  exists (zero_inactive m0 (alloc_body (tier_lsg p) (tier_res p tok) amount m0 a0)),
    m0, k, a0.
  repeat split; auto.
  unfold calc_tier_amts_in; replace (Rge0b amount) with true
    by (symmetry; apply Rge0b_spec; auto).
  rewrite Hl; reflexivity.
Qed.

Lemma calc_tier_amts_in_Ok p tok amount amts mask :
  shape_ok p -> calc_tier_amts_in p tok amount = Ok (amts, mask) ->
  exists k a0,
    0 <= amount /\
    alloc_loop (tier_lsg p) (tier_res p tok) amount (S (size p))
      (repeat true (size p)) (repeat 0 (size p)) = Some (amts, mask, k) /\
    alloc_visited (tier_lsg p) (tier_res p tok) amount (size p) mask a0 /\
    amts = zero_inactive mask (alloc_body (tier_lsg p) (tier_res p tok) amount mask a0) /\
    mall_nonneg mask (alloc_body (tier_lsg p) (tier_res p tok) amount mask a0) = true.
Proof.
  intros Hs H.
  assert (Ha : 0 <= amount).
  { unfold calc_tier_amts_in in H; destruct (Rge0b amount) eqn:E; [|discriminate].
    apply Rge0b_spec; auto. }
  destruct (calc_tier_amts_in_spec p tok amount Hs Ha)
    as (amts' & mask' & k & a0 & Hc & Hl & Hv & He & Hall).
  rewrite H in Hc; injection Hc as <- <-.
  exists k, a0; auto.
Qed.

(** per-tier properties of the allocator output *)
Lemma calc_tier_amts_in_props p tok amount amts mask :
  shape_ok p -> calc_tier_amts_in p tok amount = Ok (amts, mask) ->
  length amts = size p /\ length mask = size p /\
  (forall i, 0 <= nth i amts 0) /\
  (forall i, nth i mask false = false -> nth i amts 0 = 0).
Proof.
  intros Hs H.
  destruct (calc_tier_amts_in_Ok p tok amount amts mask Hs H)
    as (k & a0 & Ha & Hl & Hv & -> & Hall).
  destruct (pool_visited_length _ _ _ _ _ Hs Hv) as [Hm Ha0].
  assert (Hb : length (alloc_body (tier_lsg p) (tier_res p tok) amount mask a0) = size p)
    by (rewrite alloc_body_length; auto).
  repeat split.
  - rewrite zero_inactive_length; auto.
  - auto.
  - intros i; rewrite zero_inactive_nth by lia.
    destruct (nth i mask false) eqn:E; [|lra].
    apply (mall_nonneg_nth _ _ _ Hall E).
    destruct (Nat.lt_ge_cases i (size p)); [lia|].
    rewrite nth_overflow in E by lia; discriminate.
  - intros i E; rewrite zero_inactive_nth by lia; rewrite E; reflexivity.
Qed.

(** the active entries of the allocator output sum to the input *)
Lemma calc_tier_amts_in_sum p tok amount amts mask :
  shape_ok p -> Forall (fun l => 0 < l) (tier_lsg p) -> (1 <= size p)%nat ->
  calc_tier_amts_in p tok amount = Ok (amts, mask) ->
  msum mask amts = amount /\ (0 < count_true mask)%nat.
Proof.
  intros Hs Hp Hn H.
  destruct (calc_tier_amts_in_Ok p tok amount amts mask Hs H)
    as (k & a0 & Ha & Hl & Hv & -> & Hall).
  destruct (pool_visited_length _ _ _ _ _ Hs Hv) as [Hm Ha0].
  rewrite msum_zero_inactive by (rewrite alloc_body_length; lia).
  split; [apply (pool_body_sum p tok amount mask a0) |
          apply (pool_visited_nonempty p tok amount mask a0)]; auto.
Qed.

(** inversion of a successful swap *)
Lemma swap_Ok_inv p tok a p' r :
  swap p tok a = (p', Ok r) ->
  0 < a /\ shape_ok p /\ exists mask, calc_tier_amts_in p tok a = Ok (amts_in r, mask).
Proof.
  unfold swap; intros H.
  destruct (Rgt0b a) eqn:Ea; simpl in H; [|discriminate].
  destruct (shape_okb p) eqn:Es; simpl in H; [|discriminate].
  destruct (calc_tier_amts_in p tok a) as [[amts mask]|e] eqn:Ec; [|discriminate].
  injection H as _ <-; simpl.
  split; [apply Rgt0b_spec; auto|]; split; [apply shape_okb_spec; auto|].
  exists mask; reflexivity.
Qed.

Ltac len_tac :=
  repeat rewrite ?masked_set_length, ?vzip_length, ?vzip3_length, ?repeat_length,
    ?length_map; lia.

Ltac nth_tac :=
  repeat first
    [ rewrite masked_set_nth by (unfold tier_gamma in *; len_tac)
    | rewrite (vzip3_nth _ _ _ _ _ 0 0 0) by (unfold tier_gamma in *; len_tac)
    | rewrite (vzip_nth _ _ _ _ 0 0) by (unfold tier_gamma in *; len_tac)
    | rewrite tier_gamma_nth by auto
    | rewrite nth_repeat ].

(** entry-wise effect of a successful swap *)
Lemma swap_Ok_nth p tok a p' r :
  swap p tok a = (p', Ok r) ->
  exists mask,
    calc_tier_amts_in p tok a = Ok (amts_in r, mask) /\ 0 < a /\ shape_ok p /\
    length mask = size p /\ length (amts_in r) = size p /\
    size p' = size p /\ liquidity_arr p' = liquidity_arr p /\
    sqrt_gamma_arr p' = sqrt_gamma_arr p /\ shape_ok p' /\
    amt_in r = msum mask (amts_in r) /\
    (forall i, (i < size p)%nat ->
       nth i (sqrt_p_arr p') 0 =
         (if nth i mask false
          then calc_sqrt_p_from_amt tok (nth i (sqrt_p_arr p) 0) (nth i (liquidity_arr p) 0)
                 (nth i (amts_in r) 0 * nth i (sqrt_gamma_arr p) 0 ^ 2)
          else nth i (sqrt_p_arr p) 0) /\
       nth i (fee_amts r) 0 =
         (if nth i mask false
          then nth i (amts_in r) 0 - nth i (amts_in r) 0 * nth i (sqrt_gamma_arr p) 0 ^ 2
          else 0) /\
       let bumped g := if nth i mask false
                       then nth i g 0 + nth i (fee_amts r) 0 / nth i (liquidity_arr p) 0
                       else nth i g 0 in
       (tok = true -> nth i (fee0_growth_arr p') 0 = bumped (fee0_growth_arr p)) /\
       (tok = false -> nth i (fee1_growth_arr p') 0 = bumped (fee1_growth_arr p))) /\
    (tok = true -> fee1_growth_arr p' = fee1_growth_arr p) /\
    (tok = false -> fee0_growth_arr p' = fee0_growth_arr p).
Proof.
  intros H.
  destruct (swap_Ok_inv p tok a p' r H) as (Ha & Hs & _).
  pose proof Hs as (HL & HP & HG & HF0 & HF1).
  unfold swap in H.
  replace (Rgt0b a) with true in H by (symmetry; apply Rgt0b_spec; auto).
  replace (shape_okb p) with true in H by (symmetry; apply shape_okb_spec; auto).
  destruct (calc_tier_amts_in p tok a) as [[amts mask]|e] eqn:Hc; [|discriminate].
  destruct (calc_tier_amts_in_props p tok a _ _ Hs Hc) as (Hla & Hlm & _).
  exists mask.
  destruct tok; simpl in H; injection H as <- <-; simpl in *;
    (split; [reflexivity|]); (split; [exact Ha|]); (split; [exact Hs|]);
    (split; [lia|]); (split; [lia|]); (split; [reflexivity|]);
    (split; [reflexivity|]); (split; [reflexivity|]);
    (split; [unfold shape_ok; simpl; repeat split; len_tac|]);
    (split; [reflexivity|]).
  - split; [|split; [reflexivity | discriminate]].
    intros i Hi.
    cbv zeta; nth_tac.
    destruct (nth i mask false); repeat split; try discriminate; reflexivity.
  - split; [|split; [discriminate | reflexivity]].
    intros i Hi.
    cbv zeta; nth_tac.
    destruct (nth i mask false); repeat split; try discriminate; reflexivity.
Qed.

Lemma map_seq_ext xs f n :
  length xs = n -> (forall i, (i < n)%nat -> nth i xs 0 = f i) ->
  xs = map f (seq 0 n).
Proof.
  intros Hl H; apply nth_ext with (d := 0) (d' := 0).
  - rewrite length_map, length_seq; auto.
  - intros i Hi. rewrite (nth_indep (map f (seq 0 n)) 0 (f O)) by (rewrite length_map, length_seq; lia).
    rewrite map_nth, seq_nth by lia; simpl; apply H; lia.
Qed.

Lemma tier_lsg_nth p i :
  shape_ok p -> (i < size p)%nat ->
  nth i (tier_lsg p) 0 = nth i (liquidity_arr p) 0 / nth i (sqrt_gamma_arr p) 0.
Proof.
  intros (HL & HP & HG & _) Hi; unfold tier_lsg.
  rewrite (vzip_nth _ _ _ _ 0 0) by lia; reflexivity.
Qed.

Lemma tier_res_nth p tok i :
  shape_ok p -> (i < size p)%nat ->
  nth i (tier_res p tok) 0 =
  if tok
  then (nth i (liquidity_arr p) 0 / nth i (sqrt_p_arr p) 0) / nth i (sqrt_gamma_arr p) 0 ^ 2
  else (nth i (liquidity_arr p) 0 * nth i (sqrt_p_arr p) 0) / nth i (sqrt_gamma_arr p) 0 ^ 2.
Proof.
  intros Hs Hi; pose proof Hs as (HL & HP & HG & _); unfold tier_res.
  destruct tok; nth_tac; reflexivity.
Qed.

(** ** Claims *)

(** C4: the price algebra computes [sqrt_p1 = L sqrt_p0 / (L + amt sqrt_p0)]
    when selling token0 and [sqrt_p1 = sqrt_p0 + amt / L] when selling
    token1; the amount owed is [L (sqrt_p0 - sqrt_p1) / (sqrt_p0 sqrt_p1)]
    in token0 and [L (sqrt_p1 - sqrt_p0)] in token1 (for all arguments, in
    particular for [L > 0], [sqrt_p0 > 0], [amt >= 0]). *)
Theorem price_algebra_formulas (liquidity sqrt_p0 sqrt_p1 amt : R) :
  calc_sqrt_p_from_amt true sqrt_p0 liquidity amt =
    (liquidity * sqrt_p0) / (liquidity + amt * sqrt_p0) /\
  calc_sqrt_p_from_amt false sqrt_p0 liquidity amt = sqrt_p0 + amt / liquidity /\
  calc_amt_from_sqrt_p true sqrt_p0 sqrt_p1 liquidity =
    liquidity * (sqrt_p0 - sqrt_p1) / (sqrt_p0 * sqrt_p1) /\
  calc_amt_from_sqrt_p false sqrt_p0 sqrt_p1 liquidity =
    liquidity * (sqrt_p1 - sqrt_p0).
Proof. repeat split. Qed.

(** C1 (counterexample): a pool with no tier satisfies every per-tier
    condition vacuously; its first allocator pass has no active tier and the
    active allocations sum to 0, not to the input amount 1. *)
Lemma alloc_sum_zero_tiers :
  let p := pool_init [] [] 1 in
  tiers_ok p /\
  alloc_visited (tier_lsg p) (tier_res p true) 1 (size p) [] [] /\
  msum [] (alloc_body (tier_lsg p) (tier_res p true) 1 [] []) = 0 /\
  msum [] (alloc_body (tier_lsg p) (tier_res p true) 1 [] []) <> 1.
Proof.
  simpl. split; [|split; [|split]].
  - repeat split; simpl; auto.
  - exact (av_init [] [] 1 0).
  - reflexivity.
  - simpl; lra.
Qed.

(** C1 (amended): for a pool with at least one tier whose tiers have
    [liquidity > 0], [sqrt_price > 0], [sqrt_gamma] in (0,1], and an input
    [amount >= 0], at every pass of the allocator each active tier [i] gets
    [weight i * (amount + sum of active reserves) / (sum of active weights)
    - reserve i] with [weight i = liquidity i / sqrt_gamma i] and
    [reserve i = (liquidity i / sqrt_price i) / gamma i] (selling token0) or
    [(liquidity i * sqrt_price i) / gamma i] (selling token1), and the active
    allocations sum to [amount]. *)
Theorem alloc_pass_closed_form (p : Pool) (tok : bool) (amount : R)
  (m : list bool) (a : list R) :
  pool_valid p -> 0 <= amount ->
  alloc_visited (tier_lsg p) (tier_res p tok) amount (size p) m a ->
  let weight j := nth j (liquidity_arr p) 0 / nth j (sqrt_gamma_arr p) 0 in
  let gamma j := nth j (sqrt_gamma_arr p) 0 ^ 2 in
  let reserve j := if tok
                   then (nth j (liquidity_arr p) 0 / nth j (sqrt_p_arr p) 0) / gamma j
                   else (nth j (liquidity_arr p) 0 * nth j (sqrt_p_arr p) 0) / gamma j in
  let active_sum f := msum m (map f (seq 0 (size p))) in
  let amts' := alloc_body (tier_lsg p) (tier_res p tok) amount m a in
  (forall i, nth i m false = true ->
     nth i amts' 0 =
     weight i * (amount + active_sum reserve) / active_sum weight - reserve i) /\
  msum m amts' = amount.
Proof.
  intros Hv Ha Hvis weight gamma reserve active_sum amts'.
  pose proof Hv as [Ht Hn]; pose proof Ht as (Hs & _).
  destruct (pool_visited_length p tok amount m a Hs Hvis) as [Hm Hal].
  assert (Ew : tier_lsg p = map weight (seq 0 (size p))).
  { apply map_seq_ext; [apply tier_lsg_length; auto|].
    intros i Hi; apply tier_lsg_nth; auto. }
  assert (Er : tier_res p tok = map reserve (seq 0 (size p))).
  { apply map_seq_ext; [apply tier_res_length; auto|].
    intros i Hi; apply tier_res_nth; auto. }
  split.
  - intros i Hi.
    assert (i < size p)%nat.
    { destruct (Nat.lt_ge_cases i (size p)); auto.
      rewrite nth_overflow in Hi by lia; discriminate. }
    unfold amts'; rewrite alloc_body_nth with (n := size p) by
      (auto; first [apply tier_lsg_length | apply tier_res_length]; auto).
    rewrite Hi, tier_lsg_nth, tier_res_nth by auto.
    unfold active_sum; rewrite <- Ew, <- Er; reflexivity.
  - apply pool_body_sum; auto; apply tier_lsg_pos; auto.
Qed.

(** C2: for an input [amount >= 0] and a pool whose tiers have
    [liquidity > 0], [sqrt_price > 0], [sqrt_gamma] in (0,1], the allocator
    returns a per-tier amount array with every entry [>= 0] and exactly 0
    for every tier outside the returned mask. *)
Theorem calc_tier_amts_in_nonneg (p : Pool) (tok : bool) (amount : R) :
  tiers_ok p -> 0 <= amount ->
  exists amts mask,
    calc_tier_amts_in p tok amount = Ok (amts, mask) /\
    length amts = size p /\ length mask = size p /\
    (forall i, 0 <= nth i amts 0) /\
    (forall i, nth i mask false = false -> nth i amts 0 = 0).
Proof.
  intros (Hs & _) Ha.
  destruct (calc_tier_amts_in_spec p tok amount Hs Ha)
    as (amts & mask & _ & _ & Hc & _).
  exists amts, mask; split; auto.
  apply (calc_tier_amts_in_props p tok amount); auto.
Qed.

(** C3: for a valid pool (at least one tier, per-tier invariants) and an
    input [amount >= 0], every non-terminal pass of the allocator discards at
    least one active tier, and the loop stops after [k] passes with
    [1 <= k <= tier_count], with the same result for any bound on the
    number of passes that is at least [k]. *)
Theorem alloc_loop_bounded (p : Pool) (tok : bool) (amount : R) :
  pool_valid p -> 0 <= amount ->
  (forall m a,
     alloc_visited (tier_lsg p) (tier_res p tok) amount (size p) m a ->
     mall_nonneg m (alloc_body (tier_lsg p) (tier_res p tok) amount m a) = false ->
     (count_true (mask_and m (alloc_body (tier_lsg p) (tier_res p tok) amount m a))
        < count_true m)%nat) /\
  exists amts mask k,
    (1 <= k <= size p)%nat /\
    calc_tier_amts_in p tok amount = Ok (amts, mask) /\
    forall fuel, (k <= fuel)%nat ->
      alloc_loop (tier_lsg p) (tier_res p tok) amount fuel
        (repeat true (size p)) (repeat 0 (size p)) = Some (amts, mask, k).
Proof.
  intros Hv Ha; pose proof Hv as [Ht Hn]; pose proof Ht as (Hs & _).
  split.
  - intros m a _ E; apply count_mask_and_lt; auto.
  - destruct (calc_tier_amts_in_spec p tok amount Hs Ha)
      as (amts & mask & k & a0 & Hc & Hl & _).
    exists amts, mask, k.
    pose proof (alloc_loop_iterations _ _ _ (size p) _ _ _ _ _ _
                  (tier_lsg_length p Hs) (tier_res_length p tok Hs)
                  (tier_lsg_pos p Ht) Ha Hn (av_init _ _ _ _) Hl) as Hk.
    rewrite count_repeat_true in Hk.
    split; [lia|]; split; [auto|].
    apply (alloc_loop_fuel _ _ _ _ _ _ _ _ _ Hl).
Qed.

Lemma swap_succeeds p tok a :
  shape_ok p -> 0 < a -> exists p' r, swap p tok a = (p', Ok r).
Proof.
  intros Hs Ha.
  destruct (calc_tier_amts_in_spec p tok a Hs ltac:(lra))
    as (amts & mask & _ & _ & Hc & _).
  unfold swap.
  replace (Rgt0b a) with true by (symmetry; apply Rgt0b_spec; auto).
  replace (shape_okb p) with true by (symmetry; apply shape_okb_spec; auto).
  rewrite Hc; simpl; eexists; eexists; reflexivity.
Qed.

(** a one-tier pool routes the whole input to its tier *)
Lemma single_tier_alloc p tok amount amts mask :
  shape_ok p -> Forall (fun l => 0 < l) (tier_lsg p) -> size p = 1%nat ->
  calc_tier_amts_in p tok amount = Ok (amts, mask) ->
  amts = [amount] /\ mask = [true].
Proof.
  intros Hs Hp Hn H.
  destruct (calc_tier_amts_in_sum p tok amount amts mask Hs Hp ltac:(lia) H) as [Hsum Hc].
  destruct (calc_tier_amts_in_props p tok amount amts mask Hs H) as (Hla & Hlm & _).
  rewrite Hn in Hla, Hlm.
  destruct amts as [|x [|]]; try discriminate; destruct mask as [|b [|]]; try discriminate.
  destruct b; simpl in Hc, Hsum; [|lia].
  split; f_equal; lra.
Qed.

Lemma pool_default_valid : pool_valid pool_default.
Proof.
  unfold pool_valid, tiers_ok, shape_ok; simpl;
    repeat split; auto; repeat constructor; lra.
Qed.

Lemma pool_one_valid : pool_valid pool_one.
Proof.
  unfold pool_valid, tiers_ok, shape_ok; simpl;
    repeat split; auto; repeat constructor; lra.
Qed.

(** C10 (counterexample): a pool with no tier meets every per-tier condition
    vacuously, yet a swap of 1 succeeds with an empty active set and
    aggregate [amt_in = 0] (so [fee_bps] divides by zero). *)
Lemma swap_zero_tiers :
  tiers_ok (pool_init [] [] 1) /\
  exists p' r, swap (pool_init [] [] 1) true 1 = (p', Ok r) /\ amt_in r = 0.
Proof.
  assert (Hs : shape_ok (pool_init [] [] 1)) by (repeat split).
  split; [repeat split; auto|].
  destruct (swap_succeeds (pool_init [] [] 1) true 1 Hs ltac:(lra)) as (p' & r & H).
  exists p', r; split; auto.
  destruct (swap_Ok_nth _ _ _ _ _ H) as (mask & _ & _ & _ & Hlm & _ & _ & _ & _ & _ & Hin & _).
  destruct mask; [|discriminate]; rewrite Hin; reflexivity.
Qed.

(** C10 (amended): for a pool with at least one tier and valid tiers and an
    input [amount >= 0], the active mask is non-empty at every pass of the
    allocator and the active weights have a positive sum; for
    [amount > 0] the swap succeeds with aggregate [amt_in = amount > 0]. *)
Theorem alloc_active_nonempty (p : Pool) (tok : bool) (amount : R) :
  pool_valid p -> 0 <= amount ->
  (forall m a,
     alloc_visited (tier_lsg p) (tier_res p tok) amount (size p) m a ->
     (0 < count_true m)%nat /\ 0 < msum m (tier_lsg p)) /\
  (0 < amount ->
   exists p' r, swap p tok amount = (p', Ok r) /\ amt_in r = amount /\ 0 < amt_in r).
Proof.
  intros Hv Ha; pose proof Hv as [Ht Hn]; pose proof Ht as (Hs & _).
  pose proof (tier_lsg_pos p Ht) as Hp.
  split.
  - intros m a Hvis.
    assert (Hc : (0 < count_true m)%nat)
      by (apply (pool_visited_nonempty p tok amount m a); auto).
    split; auto.
    apply msum_pos; auto.
    destruct (pool_visited_length p tok amount m a Hs Hvis) as [Hm _].
    rewrite tier_lsg_length; auto.
  - intros Hpos.
    destruct (swap_succeeds p tok amount Hs Hpos) as (p' & r & H).
    exists p', r; split; auto.
    destruct (swap_Ok_nth _ _ _ _ _ H) as (mask & Hc & _ & _ & _ & _ & _ & _ & _ & _ & Hin & _).
    destruct (calc_tier_amts_in_sum p tok amount _ _ Hs Hp Hn Hc) as [Hsum _].
    rewrite Hin, Hsum; split; auto.
Qed.

Lemma alloc_active_nonempty_witness :
  pool_valid pool_default /\ 0 <= 1000 /\
  exists p' r, swap pool_default true 1000 = (p', Ok r) /\ amt_in r = 1000 /\ 0 < amt_in r.
Proof.
  split; [exact pool_default_valid|]; split; [lra|].
  apply (alloc_active_nonempty pool_default true 1000 pool_default_valid); lra.
Defined.

(** C5: on a pool whose tiers have [liquidity > 0], [sqrt_price > 0],
    [sqrt_gamma] in (0,1], a successful swap moves the [sqrt_price] of every
    tier with a strictly positive allocation strictly down when selling
    token0 and strictly up when selling token1. *)
Theorem swap_price_moves (p : Pool) (tok : bool) (a : R) (p' : Pool)
  (r : SwapResult) (i : nat) :
  tiers_ok p -> swap p tok a = (p', Ok r) -> (i < size p)%nat ->
  0 < nth i (amts_in r) 0 ->
  (tok = true -> nth i (sqrt_p_arr p') 0 < nth i (sqrt_p_arr p) 0) /\
  (tok = false -> nth i (sqrt_p_arr p) 0 < nth i (sqrt_p_arr p') 0).
Proof.
  intros (Hs & HL & HP & HG) H Hi Hpos.
  destruct (swap_Ok_nth _ _ _ _ _ H)
    as (mask & Hc & _ & _ & _ & _ & _ & _ & _ & _ & _ & Hnth & _).
  destruct (calc_tier_amts_in_props p tok a _ _ Hs Hc) as (_ & _ & _ & Hz).
  destruct (Hnth i Hi) as [Hsp _].
  pose proof Hs as (HlL & HlP & HlG & _).
  pose proof (Forall_nth_R _ _ i HL ltac:(lia)) as Hl.
  pose proof (Forall_nth_R _ _ i HP ltac:(lia)) as Hp.
  pose proof (Forall_nth_R _ _ i HG ltac:(lia)) as Hg; simpl in Hl, Hp, Hg.
  destruct (nth i mask false) eqn:E; [|rewrite (Hz i E) in Hpos; lra].
  rewrite Hsp; unfold calc_sqrt_p_from_amt.
  set (L := nth i (liquidity_arr p) 0) in *.
  set (s := nth i (sqrt_p_arr p) 0) in *.
  set (f := nth i (amts_in r) 0 * nth i (sqrt_gamma_arr p) 0 ^ 2).
  assert (Hf : 0 < f) by (unfold f; apply Rmult_lt_0_compat; [lra | apply pow_lt; lra]).
  clearbody f L s.
  split; intros ->.
  - assert (E1 : L * s / (L + f * s) = s - f * s * s / (L + f * s)) by (field; nra).
    rewrite E1.
    assert (0 < f * s * s / (L + f * s)).
    { apply Rdiv_lt_0_compat.
      - repeat apply Rmult_lt_0_compat; auto.
      - assert (0 < f * s) by (apply Rmult_lt_0_compat; auto); lra. }
    lra.
  - assert (0 < f / L) by (apply Rdiv_lt_0_compat; lra); lra.
Qed.

Lemma swap_price_moves_witness :
  exists p' r,
    tiers_ok pool_one /\ swap pool_one true 1000 = (p', Ok r) /\
    (0 < size pool_one)%nat /\ 0 < nth 0 (amts_in r) 0 /\
    (true = true -> nth 0 (sqrt_p_arr p') 0 < nth 0 (sqrt_p_arr pool_one) 0) /\
    (true = false -> nth 0 (sqrt_p_arr pool_one) 0 < nth 0 (sqrt_p_arr p') 0).
Proof.
  pose proof pool_one_valid as [Ht Hn]; pose proof Ht as (Hs & _).
  destruct (swap_succeeds pool_one true 1000 Hs ltac:(lra)) as (p' & r & H).
  destruct (swap_Ok_nth _ _ _ _ _ H) as (mask & Hc & _).
  destruct (single_tier_alloc _ _ _ _ _ Hs (tier_lsg_pos _ Ht) eq_refl Hc) as [Ea _].
  assert (Hpos : 0 < nth 0 (amts_in r) 0) by (rewrite Ea; simpl; lra).
  exists p', r; split; [exact Ht|]; split; [exact H|]; split; [simpl; lia|].
  split; [exact Hpos|].
  exact (swap_price_moves pool_one true 1000 p' r 0 Ht H ltac:(simpl; lia) Hpos).
Defined.

(** C6: a successful swap changes only [sqrt_price] of the active tiers and
    the fee-growth accumulator of the sold token of the active tiers, which
    gains [fee_amts i / liquidity i]; size, liquidity, [sqrt_gamma], the
    other token's accumulator and every field of an inactive tier are
    unchanged. *)
Theorem swap_frame (p : Pool) (tok : bool) (a : R) (p' : Pool) (r : SwapResult) :
  swap p tok a = (p', Ok r) ->
  exists mask,
    calc_tier_amts_in p tok a = Ok (amts_in r, mask) /\
    size p' = size p /\ liquidity_arr p' = liquidity_arr p /\
    sqrt_gamma_arr p' = sqrt_gamma_arr p /\
    (forall i, nth i mask false = false ->
       nth i (sqrt_p_arr p') 0 = nth i (sqrt_p_arr p) 0 /\
       nth i (fee0_growth_arr p') 0 = nth i (fee0_growth_arr p) 0 /\
       nth i (fee1_growth_arr p') 0 = nth i (fee1_growth_arr p) 0) /\
    (tok = true ->
       fee1_growth_arr p' = fee1_growth_arr p /\
       forall i, nth i mask false = true ->
         nth i (fee0_growth_arr p') 0 =
         nth i (fee0_growth_arr p) 0 + nth i (fee_amts r) 0 / nth i (liquidity_arr p) 0) /\
    (tok = false ->
       fee0_growth_arr p' = fee0_growth_arr p /\
       forall i, nth i mask false = true ->
         nth i (fee1_growth_arr p') 0 =
         nth i (fee1_growth_arr p) 0 + nth i (fee_amts r) 0 / nth i (liquidity_arr p) 0).
Proof.
  intros H.
  destruct (swap_Ok_nth _ _ _ _ _ H)
    as (mask & Hc & _ & Hs & Hlm & _ & Hsz & HL & HG & Hs' & _ & Hnth & H1 & H0).
  pose proof Hs as (_ & HP & _ & HF0 & HF1).
  pose proof Hs' as (_ & HP' & _ & HF0' & HF1').
  assert (Hin : forall i, nth i mask false = true -> (i < size p)%nat).
  { intros i E; destruct (Nat.lt_ge_cases i (size p)); auto.
    rewrite nth_overflow in E by lia; discriminate. }
  exists mask; split; auto; split; auto; split; auto; split; auto.
  split; [|split].
  - intros i E; destruct (Nat.lt_ge_cases i (size p)) as [Hi|Hi].
    + destruct (Hnth i Hi) as (Hsp & _ & Hf0 & Hf1); rewrite E in Hsp, Hf0, Hf1.
      split; auto.
      destruct tok; split;
        first [apply Hf0; reflexivity | apply Hf1; reflexivity
              | rewrite H1 by reflexivity; reflexivity
              | rewrite H0 by reflexivity; reflexivity].
    + rewrite !nth_overflow by lia; auto.
  - intros ->; split; [apply H1; reflexivity|].
    intros i E; destruct (Hnth i (Hin i E)) as (_ & _ & Hf0 & _).
    rewrite E in Hf0; apply Hf0; reflexivity.
  - intros ->; split; [apply H0; reflexivity|].
    intros i E; destruct (Hnth i (Hin i E)) as (_ & _ & _ & Hf1).
    rewrite E in Hf1; apply Hf1; reflexivity.
Qed.

Lemma swap_frame_witness :
  exists p' r,
    swap pool_default true 1000 = (p', Ok r) /\
    liquidity_arr p' = liquidity_arr pool_default /\
    fee1_growth_arr p' = fee1_growth_arr pool_default.
Proof.
  pose proof pool_default_valid as [[Hs _] _].
  destruct (swap_succeeds pool_default true 1000 Hs ltac:(lra)) as (p' & r & H).
  exists p', r; split; [exact H|].
  destruct (swap_frame pool_default true 1000 p' r H)
    as (mask & _ & _ & HL & _ & _ & H1 & _).
  split; [exact HL | apply H1; reflexivity].
Defined.

(** C7 (counterexample): [__init__] accepts a [sqrt_gamma_arr] longer than
    [liquidity_arr]; a swap of the positive amount 1 on that pool then
    raises (numpy shape error), leaving the pool unchanged. *)
Lemma swap_shape_error :
  0 < 1 /\
  swap (pool_init [1; 1] [1/2; 1/2; 1/2] 1) true 1 =
    (pool_init [1; 1] [1/2; 1/2; 1/2] 1, Err ShapeError).
Proof.
  split; [lra|].
  unfold swap; replace (Rgt0b 1) with true by (symmetry; apply Rgt0b_spec; lra).
  reflexivity.
Qed.

(** C7 (amended): [swap] raises exactly when [amount_in <= 0] or the
    pool's per-tier arrays do not all have [tier_count] entries (which the
    unchecked constructor allows when [liquidity_arr] and [sqrt_gamma_arr]
    differ in length); when it raises, the pool is left exactly as it was. *)
Theorem swap_fails_iff (p : Pool) (tok : bool) (a : R) :
  ((exists e, snd (swap p tok a) = Err e) <-> (a <= 0 \/ ~ shape_ok p)) /\
  (forall e, snd (swap p tok a) = Err e -> fst (swap p tok a) = p).
Proof.
  unfold swap.
  destruct (Rgt0b a) eqn:Ea; simpl.
  - apply Rgt0b_spec in Ea.
    destruct (shape_okb p) eqn:Es; simpl.
    + apply shape_okb_spec in Es.
      destruct (calc_tier_amts_in_spec p tok a Es ltac:(lra))
        as (amts & mask & _ & _ & Hc & _).
      rewrite Hc; simpl. split.
      * split; [intros [e He]; discriminate | intros [H|H]; [lra | contradiction]].
      * intros e He; discriminate.
    + split.
      * split; [intros _; right; intros H; apply shape_okb_spec in H; congruence |
                intros _; eexists; reflexivity].
      * auto.
  - split.
    + split; [intros _; left | intros _; eexists; reflexivity].
      destruct (Rle_dec a 0); auto.
      exfalso; assert (0 < a) by lra; apply Rgt0b_spec in H; congruence.
    + auto.
Qed.

Lemma Forall_nth_R_intro (P : R -> Prop) xs :
  (forall i, (i < length xs)%nat -> P (nth i xs 0)) -> Forall P xs.
Proof.
  intros H; apply Forall_nth; intros i d Hi.
  rewrite (nth_indep _ d 0) by auto; auto.
Qed.

Lemma Rdiv_nonneg x y : 0 <= x -> 0 < y -> 0 <= x / y.
Proof.
  intros Hx Hy; unfold Rdiv; apply Rmult_le_pos; auto.
  left; apply Rinv_0_lt_compat; auto.
Qed.

(** one successful swap keeps the per-tier invariants and can only raise
    the fee-growth accumulators *)
Lemma swap_preserves p tok a p' r :
  tiers_ok p -> Forall (fun x => 0 <= x) (fee0_growth_arr p) ->
  Forall (fun x => 0 <= x) (fee1_growth_arr p) ->
  swap p tok a = (p', Ok r) ->
  tiers_ok p' /\ Forall (fun x => 0 <= x) (fee0_growth_arr p') /\
  Forall (fun x => 0 <= x) (fee1_growth_arr p') /\
  forall i, nth i (fee0_growth_arr p) 0 <= nth i (fee0_growth_arr p') 0 /\
            nth i (fee1_growth_arr p) 0 <= nth i (fee1_growth_arr p') 0.
Proof.
  intros Ht H0 H1 H.
  pose proof Ht as (Hs & HL & HP & HG).
  destruct (swap_Ok_nth _ _ _ _ _ H)
    as (mask & Hc & _ & _ & Hlm & _ & Hsz & EL & EG & Hs' & _ & Hnth & E1 & E0).
  destruct (calc_tier_amts_in_props p tok a _ _ Hs Hc) as (_ & _ & Hnn & _).
  pose proof Hs as (HlL & HlP & HlG & HlF0 & HlF1).
  pose proof Hs' as (HlL' & HlP' & HlG' & HlF0' & HlF1').
  rewrite Hsz in *.
  (* per-tier facts *)
  assert (Hfee : forall i, (i < size p)%nat ->
            0 <= nth i (fee_amts r) 0 / nth i (liquidity_arr p) 0).
  { intros i Hi; destruct (Hnth i Hi) as (_ & Hf & _).
    pose proof (Forall_nth_R _ _ i HL ltac:(lia)) as Hl.
    pose proof (Forall_nth_R _ _ i HG ltac:(lia)) as Hg; simpl in Hl, Hg.
    pose proof (Hnn i) as Ha.
    apply Rdiv_nonneg; auto.
    rewrite Hf; destruct (nth i mask false); [|lra].
    assert (nth i (sqrt_gamma_arr p) 0 ^ 2 <= 1) by (simpl; nra).
    nra. }
  assert (Hmono : forall i,
            nth i (fee0_growth_arr p) 0 <= nth i (fee0_growth_arr p') 0 /\
            nth i (fee1_growth_arr p) 0 <= nth i (fee1_growth_arr p') 0).
  { intros i; destruct (Nat.lt_ge_cases i (size p)) as [Hi|Hi].
    - destruct (Hnth i Hi) as (_ & _ & Hf0 & Hf1).
      specialize (Hfee i Hi).
      destruct tok.
      + rewrite (E1 eq_refl), (Hf0 eq_refl).
        destruct (nth i mask false); lra.
      + rewrite (E0 eq_refl), (Hf1 eq_refl).
        destruct (nth i mask false); lra.
    - rewrite !nth_overflow by lia; lra. }
  split; [|split; [|split]]; auto.
  - split; auto. rewrite EL, EG; split; auto; split; auto.
    apply Forall_nth_R_intro; intros i Hi; rewrite HlP' in Hi.
    destruct (Hnth i Hi) as (Hsp & _).
    pose proof (Forall_nth_R _ _ i HL ltac:(lia)) as Hl.
    pose proof (Forall_nth_R _ _ i HP ltac:(lia)) as Hp.
    pose proof (Forall_nth_R _ _ i HG ltac:(lia)) as Hg; simpl in Hl, Hp, Hg.
    rewrite Hsp; destruct (nth i mask false); auto.
    pose proof (Hnn i) as Ha.
    assert (0 <= nth i (amts_in r) 0 * nth i (sqrt_gamma_arr p) 0 ^ 2)
      by (apply Rmult_le_pos; auto; apply pow_le; lra).
    unfold calc_sqrt_p_from_amt; destruct tok.
    + apply Rdiv_lt_0_compat; [nra|].
      assert (0 <= nth i (amts_in r) 0 * nth i (sqrt_gamma_arr p) 0 ^ 2 *
                   nth i (sqrt_p_arr p) 0) by (apply Rmult_le_pos; lra).
      lra.
    + assert (0 <= nth i (amts_in r) 0 * nth i (sqrt_gamma_arr p) 0 ^ 2 /
                   nth i (liquidity_arr p) 0) by (apply Rdiv_nonneg; lra).
      lra.
  - apply Forall_nth_R_intro; intros i Hi.
    pose proof (Forall_nth_R _ _ i H0 ltac:(lia)); simpl in *.
    specialize (Hmono i); lra.
  - apply Forall_nth_R_intro; intros i Hi.
    pose proof (Forall_nth_R _ _ i H1 ltac:(lia)); simpl in *.
    specialize (Hmono i); lra.
Qed.

Lemma Forall_repeat_R (P : R -> Prop) x n : P x -> Forall P (repeat x n).
Proof. intros H; induction n; simpl; constructor; auto. Qed.

Lemma pool_init_tiers_ok liq sg sp :
  init_args_ok liq sg sp -> tiers_ok (pool_init liq sg sp).
Proof.
  intros (Hl & HL & HG & Hp); unfold tiers_ok, shape_ok; simpl.
  rewrite !repeat_length; repeat split; auto using Forall_repeat_R.
Qed.

(** C8 (counterexample): the constructor accepts [sqrt_gamma = 1.5]; on the
    resulting one-tier pool a swap selling 1 token0 succeeds and lowers
    [fee_growth_token0] from 0 to -1.25. *)
Lemma fee_growth_decreases_unchecked :
  exists q' r,
    swap (pool_init [1] [3/2] 1) true 1 = (q', Ok r) /\
    nth 0 (fee0_growth_arr q') 0 = -5/4 /\
    nth 0 (fee0_growth_arr q') 0 < nth 0 (fee0_growth_arr (pool_init [1] [3/2] 1)) 0.
Proof.
  set (p := pool_init [1] [3/2] 1).
  assert (Hs : shape_ok p) by (repeat split).
  assert (Hp : Forall (fun l => 0 < l) (tier_lsg p)).
  { unfold tier_lsg; simpl; constructor; [|constructor].
    apply Rdiv_lt_0_compat; lra. }
  destruct (swap_succeeds p true 1 Hs ltac:(lra)) as (q' & r & H).
  exists q', r; split; [exact H|].
  destruct (swap_Ok_nth _ _ _ _ _ H)
    as (mask & Hc & _ & _ & _ & _ & _ & _ & _ & _ & _ & Hnth & _).
  destruct (single_tier_alloc _ _ _ _ _ Hs Hp eq_refl Hc) as [Ea ->].
  destruct (Hnth 0%nat ltac:(simpl; lia)) as (_ & Hf & Hf0 & _).
  rewrite (Hf0 eq_refl); simpl in Hf |- *; rewrite Hf, Ea; simpl.
  split; field_simplify; lra.
Qed.

(** C8 (amended): for a pool built from valid constructor arguments
    (equal lengths, [liquidity > 0], [sqrt_gamma] in (0,1],
    [sqrt_price > 0]), along any sequence of successful swaps every entry of
    both fee-growth accumulators starts at 0, stays [>= 0], and each further
    successful swap leaves it [>=] its previous value. *)
Theorem fee_growth_monotone (liq sg : list R) (sp : R) (q q' : Pool) (tok : bool)
  (a : R) (r : SwapResult) (i : nat) :
  init_args_ok liq sg sp ->
  swaps_from (pool_init liq sg sp) q ->
  swap q tok a = (q', Ok r) ->
  (0 <= nth i (fee0_growth_arr q) 0 <= nth i (fee0_growth_arr q') 0) /\
  (0 <= nth i (fee1_growth_arr q) 0 <= nth i (fee1_growth_arr q') 0).
Proof.
  intros Hargs Hreach Hswap.
  assert (Hinv : tiers_ok q /\ Forall (fun x => 0 <= x) (fee0_growth_arr q) /\
                 Forall (fun x => 0 <= x) (fee1_growth_arr q)).
  { clear Hswap; induction Hreach as [|q0 q1 tok0 a0 r0 Hr IH Hs0].
    - split; [apply pool_init_tiers_ok; auto|].
      simpl; split; apply Forall_repeat_R; lra.
    - destruct IH as (Ht & H0 & H1).
      destruct (swap_preserves _ _ _ _ _ Ht H0 H1 Hs0) as (Ht' & H0' & H1' & _).
      auto. }
  destruct Hinv as (Ht & H0 & H1).
  destruct (swap_preserves _ _ _ _ _ Ht H0 H1 Hswap) as (_ & _ & _ & Hm).
  destruct (Hm i) as [Hm0 Hm1].
  assert (0 <= nth i (fee0_growth_arr q) 0).
  { destruct (Nat.lt_ge_cases i (length (fee0_growth_arr q))).
    - apply (Forall_nth_R _ _ i H0); auto.
    - rewrite nth_overflow by auto; lra. }
  assert (0 <= nth i (fee1_growth_arr q) 0).
  { destruct (Nat.lt_ge_cases i (length (fee1_growth_arr q))).
    - apply (Forall_nth_R _ _ i H1); auto.
    - rewrite nth_overflow by auto; lra. }
  lra.
Qed.

Lemma fee_growth_monotone_witness :
  exists q' r,
    init_args_ok [10000] [0.9985] 1 /\
    swaps_from (pool_init [10000] [0.9985] 1) pool_one /\
    swap pool_one true 1000 = (q', Ok r) /\
    (0 <= nth 0 (fee0_growth_arr pool_one) 0 <= nth 0 (fee0_growth_arr q') 0) /\
    (0 <= nth 0 (fee1_growth_arr pool_one) 0 <= nth 0 (fee1_growth_arr q') 0).
Proof.
  pose proof pool_one_valid as [[Hs _] _].
  destruct (swap_succeeds pool_one true 1000 Hs ltac:(lra)) as (q' & r & H).
  assert (Ha : init_args_ok [10000] [0.9985] 1).
  { unfold init_args_ok; repeat split; auto; repeat constructor; lra. }
  exists q', r; split; [exact Ha|]; split; [exact (sf_refl _)|]; split; [exact H|].
  exact (fee_growth_monotone [10000] [0.9985] 1 pool_one q' true 1000 r 0
           Ha (sf_refl _) H).
Defined.

(** C9 (counterexample): the constructor returns a pool (it never raises)
    both for mismatched [liquidity]/[sqrt_gamma] lengths and for
    non-positive liquidity, [sqrt_gamma > 1] and [sqrt_p <= 0]; neither
    pool satisfies the pool invariants. *)
Lemma pool_init_accepts_invalid :
  ~ pool_valid (pool_init [1; 1] [1/2] 1) /\
  ~ pool_valid (pool_init [-1] [2] 0).
Proof.
  split.
  - intros [[(_ & _ & HG & _) _] _]; simpl in HG; discriminate.
  - intros [[_ [HL _]] _]; simpl in HL; inversion HL; lra.
Qed.

(** C9 (amended): the constructor performs no validation: for all
    arguments it returns a pool holding [liquidity_arr] and
    [sqrt_gamma_arr] as given, [sqrt_p] repeated [len(liquidity_arr)] times
    and zero fee growth; that pool satisfies the pool invariants exactly when
    the arguments are valid and [liquidity_arr] is non-empty. *)
Theorem pool_init_unchecked (liq sg : list R) (sp : R) :
  let p := pool_init liq sg sp in
  size p = length liq /\ liquidity_arr p = liq /\ sqrt_gamma_arr p = sg /\
  sqrt_p_arr p = repeat sp (length liq) /\
  fee0_growth_arr p = repeat 0 (length liq) /\
  fee1_growth_arr p = repeat 0 (length liq) /\
  (pool_valid p <-> init_args_ok liq sg sp /\ liq <> []).
Proof.
  intros p; do 6 (split; [reflexivity|]); split.
  - intros [((HlL & HlP & HlG & _) & HL & HP & HG) Hn]; simpl in *.
    destruct liq as [|l liq]; simpl in Hn; [lia|].
    split; [|discriminate].
    simpl in HP; inversion HP; subst.
    unfold init_args_ok; simpl; repeat split; auto.
  - intros [Ha Hne].
    split; [apply pool_init_tiers_ok; auto|].
    simpl; destruct liq; [contradiction | simpl; lia].
Qed.

Lemma alloc_pass_closed_form_witness :
  pool_valid pool_default /\ 0 <= 1000 /\
  alloc_visited (tier_lsg pool_default) (tier_res pool_default true) 1000
    (size pool_default) (repeat true 2) (repeat 0 2) /\
  msum (repeat true 2)
    (alloc_body (tier_lsg pool_default) (tier_res pool_default true) 1000
       (repeat true 2) (repeat 0 2)) = 1000.
Proof.
  assert (Hv : alloc_visited (tier_lsg pool_default) (tier_res pool_default true) 1000
                 (size pool_default) (repeat true 2) (repeat 0 2))
    by exact (av_init _ _ _ _).
  split; [exact pool_default_valid|]; split; [lra|]; split; [exact Hv|].
  exact (proj2 (alloc_pass_closed_form pool_default true 1000 _ _
                  pool_default_valid ltac:(lra) Hv)).
Defined.

Lemma calc_tier_amts_in_nonneg_witness :
  tiers_ok pool_default /\ 0 <= 1000 /\
  exists amts mask,
    calc_tier_amts_in pool_default false 1000 = Ok (amts, mask) /\
    length amts = 2%nat /\ length mask = 2%nat /\
    (forall i, 0 <= nth i amts 0) /\
    (forall i, nth i mask false = false -> nth i amts 0 = 0).
Proof.
  pose proof pool_default_valid as [Ht _].
  split; [exact Ht|]; split; [lra|].
  exact (calc_tier_amts_in_nonneg pool_default false 1000 Ht ltac:(lra)).
Defined.

Lemma alloc_loop_bounded_witness :
  pool_valid pool_default /\ 0 <= 1000 /\
  exists amts mask k,
    (1 <= k <= 2)%nat /\
    calc_tier_amts_in pool_default true 1000 = Ok (amts, mask) /\
    forall fuel, (k <= fuel)%nat ->
      alloc_loop (tier_lsg pool_default) (tier_res pool_default true) 1000 fuel
        (repeat true 2) (repeat 0 2) = Some (amts, mask, k).
Proof.
  split; [exact pool_default_valid|]; split; [lra|].
  exact (proj2 (alloc_loop_bounded pool_default true 1000 pool_default_valid ltac:(lra))).
Defined.

(** ** Further properties of the code *)

(** entry-wise outputs and aggregates of a successful swap *)
Lemma swap_Ok_out p tok a p' r :
  swap p tok a = (p', Ok r) ->
  exists mask,
    calc_tier_amts_in p tok a = Ok (amts_in r, mask) /\
    length (amts_out r) = size p /\ length (fee_amts r) = size p /\
    (forall i, (i < size p)%nat ->
       nth i (amts_out r) 0 =
         (if nth i mask false
          then calc_amt_from_sqrt_p (negb tok) (nth i (sqrt_p_arr p) 0)
                 (calc_sqrt_p_from_amt tok (nth i (sqrt_p_arr p) 0)
                    (nth i (liquidity_arr p) 0)
                    (nth i (amts_in r) 0 * nth i (sqrt_gamma_arr p) 0 ^ 2))
                 (nth i (liquidity_arr p) 0)
          else 0)) /\
    amt_out r = msum mask (amts_out r) /\
    fee_amt r = msum mask (fee_amts r) /\
    fee_bps r = fee_amt r / amt_in r * 10000.
Proof.
  intros H.
  destruct (swap_Ok_inv p tok a p' r H) as (Ha & Hs & _).
  pose proof Hs as (HL & HP & HG & HF0 & HF1).
  unfold swap in H.
  replace (Rgt0b a) with true in H by (symmetry; apply Rgt0b_spec; auto).
  replace (shape_okb p) with true in H by (symmetry; apply shape_okb_spec; auto).
  destruct (calc_tier_amts_in p tok a) as [[amts mask]|e] eqn:Hc; [|discriminate].
  destruct (calc_tier_amts_in_props p tok a _ _ Hs Hc) as (Hla & Hlm & _).
  exists mask.
  destruct tok; simpl in H; injection H as <- <-; simpl;
    (split; [reflexivity|]); (split; [len_tac|]); (split; [len_tac|]);
    (split; [intros i Hi; nth_tac; destruct (nth i mask false); reflexivity
            | repeat split]).
Qed.

(** a vector that is zero outside the mask sums over the mask to its total *)
Lemma msum_rsum m xs :
  length m = length xs ->
  (forall i, nth i m false = false -> nth i xs 0 = 0) ->
  msum m xs = rsum xs.
Proof.
  revert xs; induction m as [|b m IH]; destruct xs as [|x xs]; simpl;
    intros Hl H; try discriminate; auto.
  rewrite (IH xs) by (auto; intros i Hi; apply (H (S i)); auto).
  destruct b; auto. rewrite (H 0%nat eq_refl); reflexivity.
Qed.



(** X2: the aggregates [amt_in], [amt_out] and [fee_amt] of a successful
    swap, summed over the active tiers only, equal the totals of the full
    per-tier arrays [amts_in], [amts_out] and [fee_amts]. *)
Theorem swap_aggregates_total (p : Pool) (tok : bool) (a : R) (p' : Pool)
  (r : SwapResult) :
  swap p tok a = (p', Ok r) ->
  amt_in r = rsum (amts_in r) /\ amt_out r = rsum (amts_out r) /\
  fee_amt r = rsum (fee_amts r).
Proof.
  intros H.
  destruct (swap_Ok_nth _ _ _ _ _ H)
    as (mask & Hc & _ & Hs & Hlm & Hla & _ & _ & _ & _ & Hin & Hnth & _).
  destruct (swap_Ok_out _ _ _ _ _ H)
    as (mask' & Hc' & Hlo & Hlf & Hout & Hao & Hfa & _).
  rewrite Hc in Hc'; injection Hc' as <-.
  destruct (calc_tier_amts_in_props p tok a _ _ Hs Hc) as (_ & _ & _ & Hz).
  assert (Hover : forall i, nth i mask false = false -> (size p <= i)%nat ->
                   forall xs : list R, length xs = size p -> nth i xs 0 = 0)
    by (intros i _ Hi xs Hl; apply nth_overflow; lia).
  split; [|split].
  - rewrite Hin; apply msum_rsum; auto; lia.
  - rewrite Hao; apply msum_rsum; [lia|].
    intros i E; destruct (Nat.lt_ge_cases i (size p)) as [Hi|Hi].
    + rewrite (Hout i Hi), E; reflexivity.
    + apply Hover; auto.
  - rewrite Hfa; apply msum_rsum; [lia|].
    intros i E; destruct (Nat.lt_ge_cases i (size p)) as [Hi|Hi].
    + destruct (Hnth i Hi) as (_ & Hf & _); rewrite Hf, E; reflexivity.
    + apply Hover; auto.
Qed.

Lemma swap_aggregates_total_witness :
  exists p' r,
    swap pool_default false 1000 = (p', Ok r) /\
    amt_in r = rsum (amts_in r) /\ amt_out r = rsum (amts_out r) /\
    fee_amt r = rsum (fee_amts r).
Proof.
  pose proof pool_default_valid as [[Hs _] _].
  destruct (swap_succeeds pool_default false 1000 Hs ltac:(lra)) as (p' & r & H).
  exists p', r; split; [exact H|].
  exact (swap_aggregates_total pool_default false 1000 p' r H).
Defined.

(** one tier's output, [calc_amt_from_sqrt_p (not is_token0)] after
    [calc_sqrt_p_from_amt is_token0]: never positive, and for a positive
    after-fee input [f] strictly negative with magnitude below [f] valued at
    the tier's price before the swap *)
Lemma tier_out_bounds tok s L f :
  0 < s -> 0 < L -> 0 <= f ->
  let o := calc_amt_from_sqrt_p (negb tok) s (calc_sqrt_p_from_amt tok s L f) L in
  o <= 0 /\ (0 < f -> o < 0 /\ - o < (if tok then f * s ^ 2 else f / s ^ 2)).
Proof.
  intros Hs HL Hf o; unfold o, calc_amt_from_sqrt_p, calc_sqrt_p_from_amt; clear o.
  assert (0 <= f * s) by (apply Rmult_le_pos; lra).
  assert (0 < L * s) by (apply Rmult_lt_0_compat; lra).
  assert (0 < s * (L * s + f)) by (apply Rmult_lt_0_compat; lra).
  assert (0 < s ^ 2 * (L * s + f)) by (apply Rmult_lt_0_compat; [apply pow_lt|]; lra).
  destruct tok; simpl negb; cbv iota.
  - assert (E : L * (L * s / (L + f * s) - s) = - (L * f * s ^ 2 / (L + f * s)))
      by (field; lra).
    assert (E' : f * s ^ 2 - L * f * s ^ 2 / (L + f * s) =
                 f * f * s ^ 3 / (L + f * s)) by (field; lra).
    rewrite E.
    assert (0 <= L * f * s ^ 2 / (L + f * s)).
    { apply Rdiv_nonneg; [|lra].
      apply Rmult_le_pos; [apply Rmult_le_pos|apply pow_le]; lra. }
    split; [lra|]; intros Hf'.
    assert (0 < L * f * s ^ 2 / (L + f * s)).
    { apply Rdiv_lt_0_compat; [|nra].
      apply Rmult_lt_0_compat; [apply Rmult_lt_0_compat|apply pow_lt]; lra. }
    assert (0 < f * f * s ^ 3 / (L + f * s)).
    { apply Rdiv_lt_0_compat; [|nra].
      apply Rmult_lt_0_compat; [apply Rmult_lt_0_compat|apply pow_lt]; lra. }
    lra.
  - assert (0 <= f / L) by (apply Rdiv_nonneg; lra).
    assert (E : L * (s - (s + f / L)) / (s * (s + f / L)) =
                - (f * L / (s * (L * s + f)))) by (field; nra).
    assert (E' : f / s ^ 2 - f * L / (s * (L * s + f)) =
                 f * f / (s ^ 2 * (L * s + f))) by (field; nra).
    rewrite E.
    assert (0 <= f * L / (s * (L * s + f))).
    { apply Rdiv_nonneg; [apply Rmult_le_pos; lra | lra]. }
    split; [lra|]; intros Hf'.
    assert (0 < f * L / (s * (L * s + f))).
    { apply Rdiv_lt_0_compat; [apply Rmult_lt_0_compat; lra | lra]. }
    assert (0 < f * f / (s ^ 2 * (L * s + f))).
    { apply Rdiv_lt_0_compat; [apply Rmult_lt_0_compat; lra | lra]. }
    lra.
Qed.

(** the per-tier data of a successful swap on a pool satisfying [tiers_ok] *)
Lemma swap_tier_out p tok a p' r i :
  tiers_ok p -> swap p tok a = (p', Ok r) -> (i < size p)%nat ->
  0 < nth i (sqrt_p_arr p) 0 /\ 0 < nth i (liquidity_arr p) 0 /\
  0 < nth i (sqrt_gamma_arr p) 0 <= 1 /\ 0 <= nth i (amts_in r) 0 /\
  nth i (amts_out r) 0 =
    (if Rgt0b (nth i (amts_in r) 0)
     then calc_amt_from_sqrt_p (negb tok) (nth i (sqrt_p_arr p) 0)
            (calc_sqrt_p_from_amt tok (nth i (sqrt_p_arr p) 0)
               (nth i (liquidity_arr p) 0)
               (nth i (amts_in r) 0 * nth i (sqrt_gamma_arr p) 0 ^ 2))
            (nth i (liquidity_arr p) 0)
     else nth i (amts_out r) 0).
Proof.
  intros (Hs & HL & HP & HG) H Hi.
  destruct (swap_Ok_out _ _ _ _ _ H) as (mask & Hc & _ & _ & Hout & _).
  destruct (calc_tier_amts_in_props p tok a _ _ Hs Hc) as (_ & _ & Hnn & Hz).
  pose proof Hs as (HlL & HlP & HlG & _).
  pose proof (Forall_nth_R _ _ i HL ltac:(lia)) as Hl.
  pose proof (Forall_nth_R _ _ i HP ltac:(lia)) as Hp.
  pose proof (Forall_nth_R _ _ i HG ltac:(lia)) as Hg; simpl in Hl, Hp, Hg.
  repeat split; auto; try lra.
  destruct (Rgt0b (nth i (amts_in r) 0)) eqn:E; auto.
  apply Rgt0b_spec in E.
  rewrite (Hout i Hi); destruct (nth i mask false) eqn:Em; auto.
  rewrite (Hz i Em) in E; lra.
Qed.

(** X3: on a pool satisfying [tiers_ok], every entry of [amts_out] of a
    successful swap is at most 0, and strictly negative on every tier with a
    positive input: [swap] passes the old and the new price in that order,
    [calc_amt_from_sqrt_p] returns [L * (sqrt_p1 - sqrt_p0)] for token1
    (whose comment at line 114 reads [L * (sqrt_p0 - sqrt_p1)]) and
    [L * (sqrt_p0 - sqrt_p1) / (sqrt_p0 * sqrt_p1)] for token0, so the
    amounts the pool pays out are reported as negative numbers. *)
Theorem swap_out_nonpos (p : Pool) (tok : bool) (a : R) (p' : Pool)
  (r : SwapResult) (i : nat) :
  tiers_ok p -> swap p tok a = (p', Ok r) -> (i < size p)%nat ->
  nth i (amts_out r) 0 <= 0 /\
  (0 < nth i (amts_in r) 0 -> nth i (amts_out r) 0 < 0).
Proof.
  intros Ht H Hi.
  destruct (swap_Ok_out _ _ _ _ _ H) as (mask & Hc & _ & _ & Hout & _).
  destruct (swap_tier_out p tok a p' r i Ht H Hi) as (Hp & Hl & Hg & Hnn & Ho).
  assert (Hf : 0 <= nth i (amts_in r) 0 * nth i (sqrt_gamma_arr p) 0 ^ 2)
    by (apply Rmult_le_pos; auto; apply pow_le; lra).
  pose proof (tier_out_bounds tok _ _ _ Hp Hl Hf) as [Hle Hlt]; cbv zeta in Hle, Hlt.
  split.
  - rewrite (Hout i Hi); destruct (nth i mask false); [exact Hle | lra].
  - intros Hpos; rewrite Ho.
    replace (Rgt0b (nth i (amts_in r) 0)) with true by (symmetry; apply Rgt0b_spec; auto).
    apply Hlt; apply Rmult_lt_0_compat; auto; apply pow_lt; lra.
Qed.

Lemma swap_out_nonpos_witness :
  exists p' r,
    tiers_ok pool_one /\ swap pool_one true 1000 = (p', Ok r) /\
    (0 < size pool_one)%nat /\
    nth 0 (amts_out r) 0 <= 0 /\
    (0 < nth 0 (amts_in r) 0 -> nth 0 (amts_out r) 0 < 0).
Proof.
  pose proof pool_one_valid as [Ht Hn]; pose proof Ht as (Hs & _).
  destruct (swap_succeeds pool_one true 1000 Hs ltac:(lra)) as (p' & r & H).
  exists p', r; split; [exact Ht|]; split; [exact H|]; split; [simpl; lia|].
  exact (swap_out_nonpos pool_one true 1000 p' r 0 Ht H ltac:(simpl; lia)).
Defined.

(** X4: on a pool satisfying [tiers_ok], a tier with positive input [x]
    pays out (as [-amts_out]) strictly less than its after-fee input
    [x * gamma] valued at the tier's price before the swap: less than
    [x * gamma * price] when selling token0, less than [x * gamma / price]
    when selling token1. *)
Theorem swap_out_below_spot (p : Pool) (tok : bool) (a : R) (p' : Pool)
  (r : SwapResult) (i : nat) :
  tiers_ok p -> swap p tok a = (p', Ok r) -> (i < size p)%nat ->
  0 < nth i (amts_in r) 0 ->
  let f := nth i (amts_in r) 0 * nth i (sqrt_gamma_arr p) 0 ^ 2 in
  - nth i (amts_out r) 0 <
    (if tok then f * nth i (sqrt_p_arr p) 0 ^ 2 else f / nth i (sqrt_p_arr p) 0 ^ 2).
Proof.
  intros Ht H Hi Hpos f.
  destruct (swap_tier_out p tok a p' r i Ht H Hi) as (Hp & Hl & Hg & Hnn & Ho).
  assert (Hf : 0 < f) by (apply Rmult_lt_0_compat; auto; apply pow_lt; lra).
  pose proof (tier_out_bounds tok _ _ _ Hp Hl (Rlt_le _ _ Hf)) as [_ Hlt];
    cbv zeta in Hlt.
  rewrite Ho.
  replace (Rgt0b (nth i (amts_in r) 0)) with true by (symmetry; apply Rgt0b_spec; auto).
  apply (Hlt Hf).
Qed.

Lemma swap_out_below_spot_witness :
  exists p' r,
    tiers_ok pool_one /\ swap pool_one false 1000 = (p', Ok r) /\
    (0 < size pool_one)%nat /\ 0 < nth 0 (amts_in r) 0 /\
    - nth 0 (amts_out r) 0 <
      nth 0 (amts_in r) 0 * nth 0 (sqrt_gamma_arr pool_one) 0 ^ 2 /
      nth 0 (sqrt_p_arr pool_one) 0 ^ 2.
Proof.
  pose proof pool_one_valid as [Ht Hn]; pose proof Ht as (Hs & _).
  destruct (swap_succeeds pool_one false 1000 Hs ltac:(lra)) as (p' & r & H).
  destruct (swap_Ok_nth _ _ _ _ _ H) as (mask & Hc & _).
  destruct (single_tier_alloc _ _ _ _ _ Hs (tier_lsg_pos _ Ht) eq_refl Hc) as [Ea _].
  assert (Hpos : 0 < nth 0 (amts_in r) 0) by (rewrite Ea; simpl; lra).
  exists p', r; split; [exact Ht|]; split; [exact H|]; split; [simpl; lia|].
  split; [exact Hpos|].
  exact (swap_out_below_spot pool_one false 1000 p' r 0 Ht H ltac:(simpl; lia) Hpos).
Defined.

(** bounds on masked sums *)
Lemma msum_le_scale m xs ys c :
  length m = length xs -> length m = length ys ->
  (forall i, nth i m false = true -> nth i ys 0 <= c * nth i xs 0) ->
  msum m ys <= c * msum m xs.
Proof.
  revert xs ys; induction m as [|b m IH]; destruct xs as [|x xs], ys as [|y ys];
    simpl; intros Hx Hy H; try discriminate; try lra.
  specialize (IH xs ys ltac:(lia) ltac:(lia) (fun i => H (S i))).
  destruct b; [specialize (H 0%nat eq_refl); simpl in H|]; nra.
Qed.

Lemma msum_ge_scale m xs ys c :
  length m = length xs -> length m = length ys ->
  (forall i, nth i m false = true -> c * nth i xs 0 <= nth i ys 0) ->
  c * msum m xs <= msum m ys.
Proof.
  revert xs ys; induction m as [|b m IH]; destruct xs as [|x xs], ys as [|y ys];
    simpl; intros Hx Hy H; try discriminate; try lra.
  specialize (IH xs ys ltac:(lia) ltac:(lia) (fun i => H (S i))).
  destruct b; [specialize (H 0%nat eq_refl); simpl in H|]; nra.
Qed.

Lemma nth_mask_lt (m : list bool) i : nth i m false = true -> (i < length m)%nat.
Proof.
  intros E; destruct (Nat.lt_ge_cases i (length m)); auto.
  rewrite nth_overflow in E by lia; discriminate.
Qed.

(** X5: on a pool with at least one tier and valid tiers, if every tier's
    fee rate [1 - sqrt_gamma ** 2] lies in [lo, hi], the [fee_bps] of a
    successful swap lies in [lo * 10000, hi * 10000]: the reported fee rate
    is an average of the tier fee rates weighted by the tier inputs. *)
Theorem swap_fee_bps_bounds (p : Pool) (tok : bool) (a : R) (p' : Pool)
  (r : SwapResult) (lo hi : R) :
  pool_valid p -> swap p tok a = (p', Ok r) ->
  (forall i, (i < size p)%nat ->
     lo <= 1 - nth i (sqrt_gamma_arr p) 0 ^ 2 <= hi) ->
  lo * 10000 <= fee_bps r <= hi * 10000.
Proof.
  intros [Ht Hn] H Hb.
  destruct (swap_Ok_nth _ _ _ _ _ H)
    as (mask & Hc & Ha & Hs & Hlm & Hla & _ & _ & _ & _ & Hin & Hnth & _).
  destruct (swap_Ok_out _ _ _ _ _ H) as (mask' & Hc' & _ & Hlf & _ & _ & Hfa & Hbps).
  rewrite Hc in Hc'; injection Hc' as <-.
  destruct (calc_tier_amts_in_props p tok a _ _ Hs Hc) as (_ & _ & Hnn & _).
  destruct (calc_tier_amts_in_sum p tok a _ _ Hs (tier_lsg_pos p Ht) Hn Hc) as [Hsum _].
  assert (Hact : forall i, nth i mask false = true ->
            lo * nth i (amts_in r) 0 <= nth i (fee_amts r) 0 <=
            hi * nth i (amts_in r) 0).
  { intros i E; pose proof (nth_mask_lt _ _ E) as Hi; rewrite Hlm in Hi.
    destruct (Hnth i Hi) as (_ & Hf & _); rewrite Hf, E.
    specialize (Hb i Hi); specialize (Hnn i); nra. }
  assert (Hlo : lo * msum mask (amts_in r) <= msum mask (fee_amts r))
    by (apply msum_ge_scale; [lia|lia|]; intros i E; apply (Hact i E)).
  assert (Hhi : msum mask (fee_amts r) <= hi * msum mask (amts_in r))
    by (apply msum_le_scale; [lia|lia|]; intros i E; apply (Hact i E)).
  rewrite Hbps, Hfa, Hin, Hsum; rewrite Hsum in Hlo, Hhi.
  split.
  - apply (Rmult_le_reg_r (/ 10000 * a)).
    { apply Rmult_lt_0_compat; [apply Rinv_0_lt_compat|]; lra. }
    replace (msum mask (fee_amts r) / a * 10000 * (/ 10000 * a))
      with (msum mask (fee_amts r)) by (field; lra).
    replace (lo * 10000 * (/ 10000 * a)) with (lo * a) by (field; lra); lra.
  - apply (Rmult_le_reg_r (/ 10000 * a)).
    { apply Rmult_lt_0_compat; [apply Rinv_0_lt_compat|]; lra. }
    replace (msum mask (fee_amts r) / a * 10000 * (/ 10000 * a))
      with (msum mask (fee_amts r)) by (field; lra).
    replace (hi * 10000 * (/ 10000 * a)) with (hi * a) by (field; lra); lra.
Qed.

Lemma swap_fee_bps_bounds_witness :
  exists p' r,
    pool_valid pool_default /\ swap pool_default true 1000 = (p', Ok r) /\
    (forall i, (i < size pool_default)%nat ->
       1 - 0.9997 ^ 2 <= 1 - nth i (sqrt_gamma_arr pool_default) 0 ^ 2 <=
       1 - 0.9985 ^ 2) /\
    (1 - 0.9997 ^ 2) * 10000 <= fee_bps r <= (1 - 0.9985 ^ 2) * 10000.
Proof.
  pose proof pool_default_valid as Hv; pose proof Hv as [[Hs _] _].
  destruct (swap_succeeds pool_default true 1000 Hs ltac:(lra)) as (p' & r & H).
  assert (Hb : forall i, (i < size pool_default)%nat ->
            1 - 0.9997 ^ 2 <= 1 - nth i (sqrt_gamma_arr pool_default) 0 ^ 2 <=
            1 - 0.9985 ^ 2).
  { intros [|[|i]] Hi; simpl in Hi |- *; try lia; lra. }
  exists p', r; split; [exact Hv|]; split; [exact H|]; split; [exact Hb|].
  exact (swap_fee_bps_bounds pool_default true 1000 p' r _ _ Hv H Hb).
Defined.

(** X6: on a pool with at least one tier and valid tiers, a successful swap
    leaves every active tier at the same after-fee marginal price: there is
    one [K > 0] (the multiplier [(amount + sum(res[mask])) / sum(lsg[mask])]
    of the allocator's last pass) with [sqrt_p' * sqrt_gamma = 1 / K] on
    every active tier when selling token0 and [sqrt_p' / sqrt_gamma = K]
    when selling token1. *)
Theorem swap_equalizes_marginal_price (p : Pool) (tok : bool) (a : R) (p' : Pool)
  (r : SwapResult) :
  pool_valid p -> swap p tok a = (p', Ok r) ->
  exists mask K,
    calc_tier_amts_in p tok a = Ok (amts_in r, mask) /\ 0 < K /\
    forall i, nth i mask false = true ->
      (tok = true -> nth i (sqrt_p_arr p') 0 * nth i (sqrt_gamma_arr p) 0 = / K) /\
      (tok = false -> nth i (sqrt_p_arr p') 0 / nth i (sqrt_gamma_arr p) 0 = K).
Proof.
  intros [Ht Hn] H.
  pose proof Ht as (_ & HL & HP & HG).
  destruct (swap_Ok_nth _ _ _ _ _ H)
    as (mask & Hc & Ha & Hs & Hlm & Hla & _ & _ & _ & _ & _ & Hnth & _).
  destruct (calc_tier_amts_in_Ok p tok a _ _ Hs Hc)
    as (k & a0 & _ & _ & Hv & Heq & _).
  destruct (pool_visited_length _ _ _ _ _ Hs Hv) as [Hm Ha0].
  pose proof (pool_visited_nonempty p tok a mask a0 Hs (tier_lsg_pos p Ht) Hn
                ltac:(lra) Hv) as Hcnt.
  pose proof Hs as (HlL & HlP & HlG & _).
  set (W := msum mask (tier_lsg p)).
  set (S := msum mask (tier_res p tok)).
  assert (HW : 0 < W)
    by (apply msum_pos; [apply tier_lsg_pos; auto | rewrite tier_lsg_length; auto | auto]).
  assert (HS : 0 * msum mask (tier_res p tok) <= S).
  { apply msum_ge_scale; [rewrite tier_res_length; auto .. |].
    intros i E; pose proof (nth_mask_lt _ _ E) as Hi; rewrite Hm in Hi.
    pose proof (Forall_nth_R _ _ i HL ltac:(lia)) as Hl.
    pose proof (Forall_nth_R _ _ i HP ltac:(lia)) as Hp.
    pose proof (Forall_nth_R _ _ i HG ltac:(lia)) as Hg; simpl in Hl, Hp, Hg.
    rewrite tier_res_nth by auto.
    assert (0 < nth i (sqrt_gamma_arr p) 0 ^ 2) by (apply pow_lt; lra).
    rewrite Rmult_0_l; destruct tok; left; [apply Rdiv_lt_0_compat; [apply Rdiv_lt_0_compat|]|
                          apply Rdiv_lt_0_compat; [apply Rmult_lt_0_compat|]]; lra. }
  set (K := (a + S) / W).
  assert (HK : 0 < K) by (apply Rdiv_lt_0_compat; lra).
  exists mask, K; split; [exact Hc|]; split; [exact HK|].
  intros i E; pose proof (nth_mask_lt _ _ E) as Hi; rewrite Hlm in Hi.
  pose proof (Forall_nth_R _ _ i HL ltac:(lia)) as Hl.
  pose proof (Forall_nth_R _ _ i HP ltac:(lia)) as Hp.
  pose proof (Forall_nth_R _ _ i HG ltac:(lia)) as Hg; simpl in Hl, Hp, Hg.
  assert (Hamt : nth i (amts_in r) 0 =
                 nth i (tier_lsg p) 0 * K - nth i (tier_res p tok) 0).
  { rewrite Heq, zero_inactive_nth by (rewrite alloc_body_length; lia).
    rewrite E.
    rewrite (alloc_body_nth (tier_lsg p) (tier_res p tok) a (size p)
               (tier_lsg_length p Hs) (tier_res_length p tok Hs) mask a0 i Hm Ha0).
    rewrite E; unfold K, Rdiv; fold S W; ring. }
  destruct (Hnth i Hi) as (Hsp & _).
  rewrite Hsp, E, Hamt, tier_lsg_nth, tier_res_nth by auto.
  clearbody K; clear - Hl Hp Hg HK.
  set (L := nth i (liquidity_arr p) 0) in *.
  set (s := nth i (sqrt_p_arr p) 0) in *.
  set (g := nth i (sqrt_gamma_arr p) 0) in *.
  clearbody L s g.
  unfold calc_sqrt_p_from_amt; split; intros ->; cbv iota.
  - replace (L + (L / g * K - L / s / g ^ 2) * g ^ 2 * s) with (L * g * K * s)
      by (field; lra).
    field; repeat split; lra.
  - field; lra.
Qed.

Lemma swap_equalizes_marginal_price_witness :
  exists p' r,
    pool_valid pool_default /\ swap pool_default true 1000 = (p', Ok r) /\
    exists mask K,
      calc_tier_amts_in pool_default true 1000 = Ok (amts_in r, mask) /\ 0 < K /\
      forall i, nth i mask false = true ->
        (true = true ->
           nth i (sqrt_p_arr p') 0 * nth i (sqrt_gamma_arr pool_default) 0 = / K) /\
        (true = false ->
           nth i (sqrt_p_arr p') 0 / nth i (sqrt_gamma_arr pool_default) 0 = K).
Proof.
  pose proof pool_default_valid as Hv; pose proof Hv as [[Hs _] _].
  destruct (swap_succeeds pool_default true 1000 Hs ltac:(lra)) as (p' & r & H).
  exists p', r; split; [exact Hv|]; split; [exact H|].
  exact (swap_equalizes_marginal_price pool_default true 1000 p' r Hv H).
Defined.

(** a non-negative vector with zero masked sum vanishes on the mask *)
Lemma msum_nonneg_zero m xs i :
  length m = length xs -> (forall j, 0 <= nth j xs 0) -> msum m xs = 0 ->
  nth i m false = true -> nth i xs 0 = 0.
Proof.
  revert xs i; induction m as [|b m IH]; destruct xs as [|x xs], i as [|i];
    simpl; intros Hl Hnn Hs E; try discriminate.
  - assert (0 * msum m xs <= msum m xs)
      by (apply msum_ge_scale; [lia|lia|]; intros j _; specialize (Hnn (S j)); simpl in Hnn; lra).
    subst b; specialize (Hnn 0%nat); simpl in Hnn; lra.
  - assert (0 * msum m xs <= msum m xs)
      by (apply msum_ge_scale; [lia|lia|]; intros j _; specialize (Hnn (S j)); simpl in Hnn; lra).
    assert (0 <= if b then x else 0)
      by (destruct b; [specialize (Hnn 0%nat); simpl in Hnn|]; lra).
    apply (IH xs i); auto; [intros j; apply (Hnn (S j)) | lra].
Qed.

(** X7: on a pool satisfying [tiers_ok], the allocator called with amount 0
    (which it accepts: its assertion is [amount >= 0]) returns the all-zero
    allocation. *)
Theorem calc_tier_amts_in_zero (p : Pool) (tok : bool) :
  tiers_ok p ->
  exists mask, calc_tier_amts_in p tok 0 = Ok (repeat 0 (size p), mask).
Proof.
  intros Ht; pose proof Ht as (Hs & _).
  destruct (calc_tier_amts_in_spec p tok 0 Hs (Rle_refl 0))
    as (amts & mask & _ & _ & Hc & _).
  destruct (calc_tier_amts_in_props p tok 0 _ _ Hs Hc) as (Hla & Hlm & Hnn & Hz).
  exists mask; rewrite Hc.
  replace amts with (repeat 0 (size p)); [reflexivity|].
  apply nth_ext with (d := 0) (d' := 0); [rewrite repeat_length; lia|].
  intros i Hi; rewrite repeat_length in Hi; rewrite nth_repeat.
  destruct (nth i mask false) eqn:E; [|symmetry; apply Hz; auto].
  assert (Hn : (1 <= size p)%nat) by lia.
  destruct (calc_tier_amts_in_sum p tok 0 _ _ Hs (tier_lsg_pos p Ht) Hn Hc) as [Hsum _].
  symmetry; apply (msum_nonneg_zero mask amts i); auto; lia.
Qed.

Lemma calc_tier_amts_in_zero_witness :
  tiers_ok pool_default /\
  exists mask, calc_tier_amts_in pool_default false 0 = Ok (repeat 0 (size pool_default), mask).
Proof.
  pose proof pool_default_valid as [Ht _].
  split; [exact Ht|].
  exact (calc_tier_amts_in_zero pool_default false Ht).
Defined.

(** X8: on a pool whose arrays have consistent lengths, the allocator
    fails exactly when [amount < 0], and then with the [AssertionError] of
    its first line: the repair loop never runs out of passes, for any tier
    data. *)
Theorem calc_tier_amts_in_error (p : Pool) (tok : bool) (a : R) (e : error) :
  shape_ok p ->
  calc_tier_amts_in p tok a = Err e <-> a < 0 /\ e = AssertionError.
Proof.
  intros _; unfold calc_tier_amts_in.
  destruct (Rge0b a) eqn:E.
  - apply Rge0b_spec in E.
    destruct (alloc_loop_terminates (tier_lsg p) (tier_res p tok) a (S (size p))
                (repeat true (size p)) (repeat 0 (size p))) as [[[amts mask] k] Hl].
    { rewrite count_repeat_true; lia. }
    rewrite Hl; split; [discriminate | intros [Hneg _]; lra].
  - assert (Hneg : a < 0).
    { destruct (Rlt_dec a 0); auto.
      assert (0 <= a) by lra; apply Rge0b_spec in H; congruence. }
    split; [intros He; injection He as <-; auto | intros [_ ->]; reflexivity].
Qed.

Lemma calc_tier_amts_in_error_witness :
  shape_ok pool_default /\
  (calc_tier_amts_in pool_default true (-1) = Err AssertionError <->
   -1 < 0 /\ AssertionError = AssertionError).
Proof.
  pose proof pool_default_valid as [[Hs _] _].
  split; [exact Hs|].
  exact (calc_tier_amts_in_error pool_default true (-1) AssertionError Hs).
Defined.

(** ** Combined price *)

Lemma prices_nth p i : nth i (prices p) 0 = nth i (sqrt_p_arr p) 0 ^ 2.
Proof.
  unfold prices; destruct (Nat.lt_ge_cases i (length (sqrt_p_arr p))) as [Hi|Hi].
  - rewrite (nth_indep _ 0 (0 ^ 2)) by (rewrite length_map; lia).
    apply (map_nth (fun s => s ^ 2)).
  - rewrite !nth_overflow by (rewrite ?length_map; lia); simpl; ring.
Qed.

Lemma prices_length p : length (prices p) = length (sqrt_p_arr p).
Proof. apply length_map. Qed.

Lemma rsum_pos xs : Forall (fun x => 0 < x) xs -> xs <> [] -> 0 < rsum xs.
Proof.
  induction 1 as [|x xs Hx Hxs IH]; simpl; intros Hne; [congruence|].
  destruct xs; simpl in *; [lra|].
  specialize (IH ltac:(discriminate)); lra.
Qed.

Lemma rsum_le xs ys :
  length xs = length ys ->
  (forall i, (i < length xs)%nat -> nth i xs 0 <= nth i ys 0) ->
  rsum xs <= rsum ys.
Proof.
  revert ys; induction xs as [|x xs IH]; destruct ys as [|y ys]; simpl;
    intros Hl H; try discriminate; [lra|].
  pose proof (H 0%nat ltac:(lia)); simpl in *.
  assert (rsum xs <= rsum ys) by (apply IH; [lia | intros i Hi; apply (H (S i)); lia]).
  lra.
Qed.

Lemma rsum_lt xs ys i :
  length xs = length ys ->
  (forall j, (j < length xs)%nat -> nth j xs 0 <= nth j ys 0) ->
  (i < length xs)%nat -> nth i xs 0 < nth i ys 0 ->
  rsum xs < rsum ys.
Proof.
  revert ys i; induction xs as [|x xs IH]; destruct ys as [|y ys]; simpl;
    intros i Hl H Hi Hlt; try discriminate; [lia|].
  pose proof (H 0%nat ltac:(lia)); simpl in *.
  destruct i as [|i].
  - assert (rsum xs <= rsum ys)
      by (apply rsum_le; [lia | intros j Hj; apply (H (S j)); lia]).
    lra.
  - assert (rsum xs < rsum ys)
      by (apply (IH ys i); [lia | intros j Hj; apply (H (S j)); lia | lia | auto]).
    lra.
Qed.

(** weighted sums with non-negative weights *)
Lemma rsum_weighted_bounds xs ws lo hi :
  length xs = length ws -> Forall (fun w => 0 <= w) ws ->
  (forall i, (i < length xs)%nat -> lo <= nth i xs 0 <= hi) ->
  lo * rsum ws <= rsum (vzip Rmult xs ws) <= hi * rsum ws.
Proof.
  revert ws; induction xs as [|x xs IH]; destruct ws as [|w ws]; simpl;
    intros Hl Hw H; try discriminate; [lra|].
  inversion Hw as [|? ? Hw0 Hws]; subst.
  pose proof (H 0%nat ltac:(lia)) as H0; simpl in H0.
  destruct (IH ws ltac:(lia) Hws (fun i Hi => H (S i) ltac:(lia))).
  split; nra.
Qed.

(** a masked sum that is positive has a positive active entry *)
Lemma msum_pos_entry m xs :
  0 < msum m xs -> exists i, nth i m false = true /\ 0 < nth i xs 0.
Proof.
  revert xs; induction m as [|b m IH]; destruct xs as [|x xs]; simpl; intros H;
    try lra.
  destruct b.
  - destruct (Rlt_dec 0 x) as [Hx|Hx].
    + exists 0%nat; auto.
    + destruct (IH xs ltac:(lra)) as [i Hi]; exists (S i); auto.
  - destruct (IH xs ltac:(lra)) as [i Hi]; exists (S i); auto.
Qed.

(** one tier's new square-root price *)
Lemma tier_sqrt_p_move tok s L f :
  0 < s -> 0 < L -> 0 <= f ->
  let c := calc_sqrt_p_from_amt tok s L f in
  0 < c /\
  (tok = true -> c <= s /\ (0 < f -> c < s)) /\
  (tok = false -> s <= c /\ (0 < f -> s < c)).
Proof.
  intros Hs HL Hf c; unfold c, calc_sqrt_p_from_amt; clear c.
  assert (0 <= f * s) by (apply Rmult_le_pos; lra).
  assert (0 <= f / L) by (apply Rdiv_nonneg; lra).
  destruct tok.
  - assert (E : L * s / (L + f * s) = s - f * s * s / (L + f * s)) by (field; lra).
    assert (0 <= f * s * s / (L + f * s))
      by (apply Rdiv_nonneg; [apply Rmult_le_pos|]; lra).
    split; [apply Rdiv_lt_0_compat; [apply Rmult_lt_0_compat|]; lra|].
    split; [|discriminate]; intros _; rewrite E; split; [lra|]; intros Hf'.
    assert (0 < f * s * s / (L + f * s)).
    { apply Rdiv_lt_0_compat; [repeat apply Rmult_lt_0_compat|]; lra. }
    lra.
  - split; [lra|]; split; [discriminate|]; intros _; split; [lra|]; intros Hf'.
    assert (0 < f / L) by (apply Rdiv_lt_0_compat; lra); lra.
Qed.

(** X9: a pool built by the constructor from valid arguments with at least
    one tier has combined price [sqrt_price ** 2]. *)
Theorem pool_init_price (liq sg : list R) (sp : R) :
  init_args_ok liq sg sp -> liq <> [] ->
  price (pool_init liq sg sp) = sp ^ 2.
Proof.
  intros (_ & HL & _ & _) Hne.
  pose proof (rsum_pos liq HL Hne) as Hpos.
  unfold price, prices; simpl.
  rewrite map_repeat.
  assert (E : forall n ws, length ws = n ->
             rsum (vzip Rmult (repeat (sp ^ 2) n) ws) = sp ^ 2 * rsum ws).
  { induction n as [|n IH]; destruct ws as [|w ws]; simpl; intros Hl;
      try discriminate; [ring|].
    rewrite IH by lia; ring. }
  rewrite E by reflexivity; field; lra.
Qed.

Lemma pool_init_price_witness :
  init_args_ok [10000; 10000] [0.9985; 0.9997] 1 /\ [10000; 10000] <> [] /\
  price (pool_init [10000; 10000] [0.9985; 0.9997] 1) = 1 ^ 2.
Proof.
  assert (Ha : init_args_ok [10000; 10000] [0.9985; 0.9997] 1)
    by (repeat split; repeat constructor; lra).
  split; [exact Ha|]; split; [discriminate|].
  exact (pool_init_price _ _ _ Ha ltac:(discriminate)).
Defined.

(** X10: on a pool with at least one tier and valid tiers, the combined
    price lies in [lo, hi] whenever every tier price does. *)
Theorem price_between_tier_prices (p : Pool) (lo hi : R) :
  pool_valid p ->
  (forall i, (i < size p)%nat -> lo <= nth i (prices p) 0 <= hi) ->
  lo <= price p <= hi.
Proof.
  intros [(Hs & HL & _) Hn] Hb.
  pose proof Hs as (HlL & HlP & _).
  assert (Hne : liquidity_arr p <> []) by (intros E; rewrite E in HlL; simpl in HlL; lia).
  pose proof (rsum_pos _ HL Hne) as Hpos.
  destruct (rsum_weighted_bounds (prices p) (liquidity_arr p) lo hi)
    as [Hlo Hhi].
  - rewrite prices_length; lia.
  - apply Forall_nth_R_intro; intros i Hi; pose proof (Forall_nth_R _ _ i HL Hi);
      simpl in *; lra.
  - intros i Hi; apply Hb; rewrite prices_length in Hi; lia.
  - unfold price; split.
    + apply (Rmult_le_reg_r (rsum (liquidity_arr p))); auto.
      unfold Rdiv; rewrite Rmult_assoc, Rinv_l, Rmult_1_r by lra; lra.
    + apply (Rmult_le_reg_r (rsum (liquidity_arr p))); auto.
      unfold Rdiv; rewrite Rmult_assoc, Rinv_l, Rmult_1_r by lra; lra.
Qed.

Lemma price_between_tier_prices_witness :
  pool_valid pool_default /\
  (forall i, (i < size pool_default)%nat ->
     1 <= nth i (prices pool_default) 0 <= 1) /\
  1 <= price pool_default <= 1.
Proof.
  pose proof pool_default_valid as Hv.
  assert (Hb : forall i, (i < size pool_default)%nat ->
                 1 <= nth i (prices pool_default) 0 <= 1).
  { intros [|[|i]] Hi; simpl in Hi |- *; try lia; lra. }
  split; [exact Hv|]; split; [exact Hb|].
  exact (price_between_tier_prices pool_default 1 1 Hv Hb).
Defined.

(** X11: on a pool with at least one tier and valid tiers, a successful
    swap strictly lowers the combined price when selling token0 and
    strictly raises it when selling token1. *)
Theorem swap_moves_combined_price (p : Pool) (tok : bool) (a : R) (p' : Pool)
  (r : SwapResult) :
  pool_valid p -> swap p tok a = (p', Ok r) ->
  (tok = true -> price p' < price p) /\ (tok = false -> price p < price p').
Proof.
  intros [Ht Hn] H.
  pose proof Ht as (Hs & HL & HP & HG).
  destruct (swap_Ok_nth _ _ _ _ _ H)
    as (mask & Hc & Ha & _ & Hlm & Hla & Hsz & EL & EG & Hs' & Hin & Hnth & _).
  destruct (calc_tier_amts_in_props p tok a _ _ Hs Hc) as (_ & _ & Hnn & Hz).
  destruct (calc_tier_amts_in_sum p tok a _ _ Hs (tier_lsg_pos p Ht) Hn Hc) as [Hsum _].
  destruct (msum_pos_entry mask (amts_in r) ltac:(lra)) as (i0 & Ei0 & Hi0).
  pose proof (nth_mask_lt _ _ Ei0) as Hi0l; rewrite Hlm in Hi0l.
  pose proof Hs as (HlL & HlP & HlG & _).
  pose proof Hs' as (HlL' & HlP' & _).
  rewrite Hsz in HlL', HlP'.
  (* the tier terms [price_i * L_i] before and after *)
  set (xs := vzip Rmult (prices p) (liquidity_arr p)).
  set (ys := vzip Rmult (prices p') (liquidity_arr p)).
  assert (Hlx : length xs = size p)
    by (unfold xs; rewrite vzip_length, prices_length; lia).
  assert (Hly : length ys = size p)
    by (unfold ys; rewrite vzip_length, prices_length; lia).
  assert (Hterm : forall i, (i < size p)%nat ->
            nth i xs 0 = nth i (sqrt_p_arr p) 0 ^ 2 * nth i (liquidity_arr p) 0 /\
            nth i ys 0 = nth i (sqrt_p_arr p') 0 ^ 2 * nth i (liquidity_arr p) 0).
  { intros i Hi; unfold xs, ys.
    rewrite !(vzip_nth _ _ _ _ 0 0) by (rewrite ?prices_length; lia).
    rewrite !prices_nth; auto. }
  assert (Htier : forall i, (i < size p)%nat ->
            0 < nth i (liquidity_arr p) 0 /\
            let s := nth i (sqrt_p_arr p) 0 in
            let s' := nth i (sqrt_p_arr p') 0 in
            0 < s' /\
            (tok = true -> s' <= s /\ (0 < nth i (amts_in r) 0 -> s' < s)) /\
            (tok = false -> s <= s' /\ (0 < nth i (amts_in r) 0 -> s < s'))).
  { intros i Hi.
    pose proof (Forall_nth_R _ _ i HL ltac:(lia)) as Hl.
    pose proof (Forall_nth_R _ _ i HP ltac:(lia)) as Hp.
    pose proof (Forall_nth_R _ _ i HG ltac:(lia)) as Hg; simpl in Hl, Hp, Hg.
    split; [exact Hl|]; cbv zeta.
    destruct (Hnth i Hi) as (Hsp & _); rewrite Hsp.
    destruct (nth i mask false) eqn:E.
    - assert (Hf : 0 <= nth i (amts_in r) 0 * nth i (sqrt_gamma_arr p) 0 ^ 2)
        by (apply Rmult_le_pos; auto; apply pow_le; lra).
      destruct (tier_sqrt_p_move tok _ _ _ Hp Hl Hf) as (Hc0 & Ht0 & Ht1).
      assert (Hpos : 0 < nth i (amts_in r) 0 ->
                     0 < nth i (amts_in r) 0 * nth i (sqrt_gamma_arr p) 0 ^ 2)
        by (intros; apply Rmult_lt_0_compat; auto; apply pow_lt; lra).
      split; [exact Hc0|]; split; intros Et;
        [destruct (Ht0 Et) | destruct (Ht1 Et)]; split; auto.
    - rewrite (Hz i E); split; [auto|]; split; intros _; split; try lra.
  }
  assert (Hden : 0 < rsum (liquidity_arr p)).
  { apply rsum_pos; auto; intros E; rewrite E in HlL; simpl in HlL; lia. }
  unfold price; rewrite EL; fold xs ys.
  split; intros Et.
  - assert (rsum ys < rsum xs).
    { apply (rsum_lt ys xs i0); [lia | | lia |].
      - intros j Hj; rewrite Hly in Hj.
        destruct (Hterm j Hj) as [-> ->].
        destruct (Htier j Hj) as (Hl & Hp' & Hm & _); cbv zeta in *.
        destruct (Hm Et) as [Hle _].
        apply Rmult_le_compat_r; [lra|]; apply pow_incr; lra.
      - destruct (Hterm i0 Hi0l) as [-> ->].
        destruct (Htier i0 Hi0l) as (Hl & Hp' & Hm & _); cbv zeta in *.
        destruct (Hm Et) as [_ Hlt].
        apply Rmult_lt_compat_r; [lra|]; specialize (Hlt Hi0); nra. }
    unfold Rdiv; apply Rmult_lt_compat_r; [apply Rinv_0_lt_compat|]; lra.
  - assert (rsum xs < rsum ys).
    { apply (rsum_lt xs ys i0); [lia | | lia |].
      - intros j Hj; rewrite Hlx in Hj.
        destruct (Hterm j Hj) as [-> ->].
        destruct (Htier j Hj) as (Hl & Hp' & _ & Hm); cbv zeta in *.
        destruct (Hm Et) as [Hle _].
        pose proof (Forall_nth_R _ _ j HP ltac:(lia)); simpl in *.
        apply Rmult_le_compat_r; [lra|]; nra.
      - destruct (Hterm i0 Hi0l) as [-> ->].
        destruct (Htier i0 Hi0l) as (Hl & Hp' & _ & Hm); cbv zeta in *.
        destruct (Hm Et) as [_ Hlt].
        pose proof (Forall_nth_R _ _ i0 HP ltac:(lia)); simpl in *.
        apply Rmult_lt_compat_r; [lra|]; specialize (Hlt Hi0); nra. }
    unfold Rdiv; apply Rmult_lt_compat_r; [apply Rinv_0_lt_compat|]; lra.
Qed.

Lemma swap_moves_combined_price_witness :
  exists p' r,
    pool_valid pool_default /\ swap pool_default true 1000 = (p', Ok r) /\
    (true = true -> price p' < price pool_default) /\
    (true = false -> price pool_default < price p').
Proof.
  pose proof pool_default_valid as Hv; pose proof Hv as [[Hs _] _].
  destruct (swap_succeeds pool_default true 1000 Hs ltac:(lra)) as (p' & r & H).
  exists p', r; split; [exact Hv|]; split; [exact H|].
  exact (swap_moves_combined_price pool_default true 1000 p' r Hv H).
Defined.

(** ** Sequences of swaps *)

(** X12: every pool reachable by successful swaps from a pool built with
    valid arguments keeps all per-tier invariants of the data model
    ([liquidity > 0], [sqrt_price > 0], [sqrt_gamma] in (0,1], shapes) and
    has the constructor's tier count, liquidity and [sqrt_gamma] arrays. *)
Theorem swaps_keep_invariants (liq sg : list R) (sp : R) (q : Pool) :
  init_args_ok liq sg sp ->
  swaps_from (pool_init liq sg sp) q ->
  tiers_ok q /\ size q = length liq /\ liquidity_arr q = liq /\ sqrt_gamma_arr q = sg.
Proof.
  intros Hargs Hreach.
  assert (Hinv : tiers_ok q /\ Forall (fun x => 0 <= x) (fee0_growth_arr q) /\
                 Forall (fun x => 0 <= x) (fee1_growth_arr q) /\
                 size q = length liq /\ liquidity_arr q = liq /\ sqrt_gamma_arr q = sg).
  { induction Hreach as [|q0 q1 tok0 a0 r0 Hr IH Hs0].
    - split; [apply pool_init_tiers_ok; auto|].
      simpl; split; [apply Forall_repeat_R; lra|].
      split; [apply Forall_repeat_R; lra|]; auto.
    - destruct IH as (Ht & H0 & H1 & Hsz & EL & EG).
      destruct (swap_preserves _ _ _ _ _ Ht H0 H1 Hs0) as (Ht' & H0' & H1' & _).
      destruct (swap_Ok_nth _ _ _ _ _ Hs0)
        as (mask & _ & _ & _ & _ & _ & Hsz' & EL' & EG' & _).
      split; [exact Ht'|]; split; [exact H0'|]; split; [exact H1'|].
      split; [|split]; congruence. }
  tauto.
Qed.

Lemma swaps_keep_invariants_witness :
  exists q r,
    init_args_ok [10000; 10000] [0.9985; 0.9997] 1 /\
    swap pool_default true 1000 = (q, Ok r) /\
    swaps_from (pool_init [10000; 10000] [0.9985; 0.9997] 1) q /\
    tiers_ok q /\ size q = length [10000; 10000] /\
    liquidity_arr q = [10000; 10000] /\ sqrt_gamma_arr q = [0.9985; 0.9997].
Proof.
  assert (Ha : init_args_ok [10000; 10000] [0.9985; 0.9997] 1)
    by (repeat split; repeat constructor; lra).
  pose proof pool_default_valid as [[Hs _] _].
  destruct (swap_succeeds pool_default true 1000 Hs ltac:(lra)) as (q & r & H).
  assert (Hr : swaps_from (pool_init [10000; 10000] [0.9985; 0.9997] 1) q)
    by (apply (sf_step _ pool_default q true 1000 r (sf_refl _) H)).
  exists q, r; split; [exact Ha|]; split; [exact H|]; split; [exact Hr|].
  exact (swaps_keep_invariants _ _ _ q Ha Hr).
Defined.

(** a successful swap on a one-tier pool, computed *)
Lemma swap_one_tier l s g f0 f1 tok c q' r :
  0 < l -> 0 < g ->
  swap (mkPool 1 [l] [s] [g] [f0] [f1]) tok c = (q', Ok r) ->
  q' = mkPool 1 [l] [calc_sqrt_p_from_amt tok s l (c * g ^ 2)] [g]
         (if tok then [f0 + (c - c * g ^ 2) / l] else [f0])
         (if tok then [f1] else [f1 + (c - c * g ^ 2) / l]) /\
  amt_out r = calc_amt_from_sqrt_p (negb tok) s (calc_sqrt_p_from_amt tok s l (c * g ^ 2)) l /\
  fee_amt r = c - c * g ^ 2 /\ amt_in r = c.
Proof.
  intros Hl Hg H.
  set (q := mkPool 1 [l] [s] [g] [f0] [f1]) in H.
  destruct (swap_Ok_inv q tok c q' r H) as (Hc & Hs & mask & Hcalc).
  assert (Hp : Forall (fun x => 0 < x) (tier_lsg q))
    by (unfold tier_lsg; simpl; constructor; [apply Rdiv_lt_0_compat|]; auto).
  destruct (single_tier_alloc q tok c _ _ Hs Hp eq_refl Hcalc) as [Ea ->].
  rewrite Ea in Hcalc.
  unfold swap in H.
  replace (Rgt0b c) with true in H by (symmetry; apply Rgt0b_spec; auto).
  replace (shape_okb q) with true in H by (symmetry; apply shape_okb_spec; auto).
  rewrite Hcalc in H.
  destruct tok; simpl in H; injection H as <- <-; simpl;
    (split; [repeat f_equal; ring | split; [|split]]); try ring;
    unfold calc_amt_from_sqrt_p, calc_sqrt_p_from_amt; simpl; ring.
Qed.

(** X13: on a one-tier pool with a valid tier, selling [a] and then [b] of
    the same token leaves exactly the pool state that one sale of [a + b]
    leaves, and the two outputs and the two fees add up to those of the
    single sale. *)
Theorem swap_split_one_tier (p : Pool) (tok : bool) (a b : R)
  (p1 p2 p3 : Pool) (r1 r2 r3 : SwapResult) :
  pool_valid p -> size p = 1%nat ->
  swap p tok a = (p1, Ok r1) -> swap p1 tok b = (p2, Ok r2) ->
  swap p tok (a + b) = (p3, Ok r3) ->
  p2 = p3 /\ amt_out r1 + amt_out r2 = amt_out r3 /\
  fee_amt r1 + fee_amt r2 = fee_amt r3.
Proof.
  intros [(Hs & HL & HP & HG) _] Hn H1 H2 H3.
  destruct p as [n L S G F0 F1]; simpl in *; subst n.
  destruct Hs as (HlL & HlP & HlG & HlF0 & HlF1); simpl in *.
  destruct L as [|l [|]]; try discriminate.
  destruct S as [|s [|]]; try discriminate.
  destruct G as [|g [|]]; try discriminate.
  destruct F0 as [|f0 [|]]; try discriminate.
  destruct F1 as [|f1 [|]]; try discriminate.
  inversion HL as [|? ? Hl _]; inversion HP as [|? ? Hp _];
    inversion HG as [|? ? Hg _]; subst.
  destruct (swap_one_tier l s g f0 f1 tok a p1 r1 Hl ltac:(lra) H1)
    as (-> & Eo1 & Ef1 & _).
  destruct (swap_one_tier l s g f0 f1 tok (a + b) p3 r3 Hl ltac:(lra) H3)
    as (-> & Eo3 & Ef3 & _).
  destruct (swap_Ok_inv _ _ _ _ _ H1) as (Ha & _).
  destruct (swap_Ok_inv _ _ _ _ _ H2) as (Hb & _).
  assert (Hg2 : 0 < g ^ 2) by (apply pow_lt; lra).
  assert (Hfa : 0 < a * g ^ 2) by (apply Rmult_lt_0_compat; lra).
  assert (Hfb : 0 < b * g ^ 2) by (apply Rmult_lt_0_compat; lra).
  destruct (tier_sqrt_p_move tok s l (a * g ^ 2) Hp Hl ltac:(lra)) as (Hs1 & _).
  set (s1 := calc_sqrt_p_from_amt tok s l (a * g ^ 2)) in *.
  destruct (tier_sqrt_p_move tok s1 l (b * g ^ 2) Hs1 Hl ltac:(lra)) as (Hs2 & _).
  assert (E2 : calc_sqrt_p_from_amt tok s1 l (b * g ^ 2) =
               calc_sqrt_p_from_amt tok s l ((a + b) * g ^ 2)).
  { unfold s1, calc_sqrt_p_from_amt in *; destruct tok.
    - assert (0 < a * g ^ 2 * s) by (apply Rmult_lt_0_compat; lra).
      assert (0 < b * g ^ 2 * s) by (apply Rmult_lt_0_compat; lra).
      field; split; nra.
    - field; lra. }
  destruct tok.
  - destruct (swap_one_tier l s1 g (f0 + (a - a * g ^ 2) / l) f1 true b p2 r2
                Hl ltac:(lra) H2) as (-> & Eo2 & Ef2 & _).
    rewrite Eo1, Eo2, Eo3, Ef1, Ef2, Ef3, E2.
    split; [do 2 f_equal; field; lra|].
    unfold calc_amt_from_sqrt_p; simpl; split; ring.
  - destruct (swap_one_tier l s1 g f0 (f1 + (a - a * g ^ 2) / l) false b p2 r2
                Hl ltac:(lra) H2) as (-> & Eo2 & Ef2 & _).
    rewrite Eo1, Eo2, Eo3, Ef1, Ef2, Ef3, <- E2.
    split; [do 2 f_equal; field; lra|].
    set (s2 := calc_sqrt_p_from_amt false s1 l (b * g ^ 2)) in *.
    unfold calc_amt_from_sqrt_p; cbn [negb].
    split; [field; repeat split; lra | ring].
Qed.

Lemma swap_split_one_tier_witness :
  exists p1 p2 p3 r1 r2 r3,
    pool_valid pool_one /\ size pool_one = 1%nat /\
    swap pool_one true 1000 = (p1, Ok r1) /\ swap p1 true 500 = (p2, Ok r2) /\
    swap pool_one true (1000 + 500) = (p3, Ok r3) /\
    p2 = p3 /\ amt_out r1 + amt_out r2 = amt_out r3 /\
    fee_amt r1 + fee_amt r2 = fee_amt r3.
Proof.
  pose proof pool_one_valid as Hv; pose proof Hv as [[Hs _] _].
  destruct (swap_succeeds pool_one true 1000 Hs ltac:(lra)) as (p1 & r1 & H1).
  destruct (swap_Ok_nth _ _ _ _ _ H1) as (mask & _ & _ & _ & _ & _ & _ & _ & _ & Hs1 & _).
  destruct (swap_succeeds p1 true 500 Hs1 ltac:(lra)) as (p2 & r2 & H2).
  destruct (swap_succeeds pool_one true (1000 + 500) Hs ltac:(lra)) as (p3 & r3 & H3).
  exists p1, p2, p3, r1, r2, r3.
  split; [exact Hv|]; split; [reflexivity|]; split; [exact H1|]; split; [exact H2|].
  split; [exact H3|].
  exact (swap_split_one_tier pool_one true 1000 500 p1 p2 p3 r1 r2 r3 Hv eq_refl H1 H2 H3).
Defined.

(** ** Output bounded by the virtual reserves *)

Lemma tier_out_reserve tok s L f :
  0 < s -> 0 < L -> 0 <= f ->
  - calc_amt_from_sqrt_p (negb tok) s (calc_sqrt_p_from_amt tok s L f) L <
  (if tok then L * s else L / s).
Proof.
  intros Hs HL Hf; unfold calc_amt_from_sqrt_p, calc_sqrt_p_from_amt.
  assert (0 <= f * s) by (apply Rmult_le_pos; lra).
  assert (0 < L * s) by (apply Rmult_lt_0_compat; lra).
  destruct tok; cbn [negb].
  - assert (E : L * s - - (L * (L * s / (L + f * s) - s)) = L * s * L / (L + f * s))
      by (field; lra).
    assert (0 < L * s * L / (L + f * s))
      by (apply Rdiv_lt_0_compat; [apply Rmult_lt_0_compat|]; lra).
    lra.
  - assert (0 <= f / L) by (apply Rdiv_nonneg; lra).
    assert (0 < s * (s + f / L)) by (apply Rmult_lt_0_compat; lra).
    assert (E : L / s - - (L * (s - (s + f / L)) / (s * (s + f / L))) =
                L * L / (L * s + f)) by (field; nra).
    assert (0 < L * L / (L * s + f))
      by (apply Rdiv_lt_0_compat; [apply Rmult_lt_0_compat|]; lra).
    lra.
Qed.

(** X14: on a pool satisfying [tiers_ok], whatever the input, no tier pays
    out (as [-amts_out]) as much as its virtual reserve of the output token:
    [L * sqrt_p] of token1 when selling token0, [L / sqrt_p] of token0 when
    selling token1. *)
Theorem swap_out_below_reserve (p : Pool) (tok : bool) (a : R) (p' : Pool)
  (r : SwapResult) (i : nat) :
  tiers_ok p -> swap p tok a = (p', Ok r) -> (i < size p)%nat ->
  - nth i (amts_out r) 0 <
  (if tok then nth i (liquidity_arr p) 0 * nth i (sqrt_p_arr p) 0
   else nth i (liquidity_arr p) 0 / nth i (sqrt_p_arr p) 0).
Proof.
  intros Ht H Hi.
  destruct (swap_Ok_out _ _ _ _ _ H) as (mask & _ & _ & _ & Hout & _).
  destruct (swap_tier_out p tok a p' r i Ht H Hi) as (Hp & Hl & Hg & Hnn & _).
  assert (Hf : 0 <= nth i (amts_in r) 0 * nth i (sqrt_gamma_arr p) 0 ^ 2)
    by (apply Rmult_le_pos; auto; apply pow_le; lra).
  rewrite (Hout i Hi); destruct (nth i mask false).
  - apply tier_out_reserve; auto.
  - destruct tok; [assert (0 < nth i (liquidity_arr p) 0 * nth i (sqrt_p_arr p) 0)
                     by (apply Rmult_lt_0_compat; lra)
                  | assert (0 < nth i (liquidity_arr p) 0 / nth i (sqrt_p_arr p) 0)
                     by (apply Rdiv_lt_0_compat; lra)]; lra.
Qed.

Lemma swap_out_below_reserve_witness :
  exists p' r,
    tiers_ok pool_default /\ swap pool_default true 1000000 = (p', Ok r) /\
    (1 < size pool_default)%nat /\
    - nth 1 (amts_out r) 0 <
      nth 1 (liquidity_arr pool_default) 0 * nth 1 (sqrt_p_arr pool_default) 0.
Proof.
  pose proof pool_default_valid as [Ht _]; pose proof Ht as (Hs & _).
  destruct (swap_succeeds pool_default true 1000000 Hs ltac:(lra)) as (p' & r & H).
  exists p', r; split; [exact Ht|]; split; [exact H|]; split; [simpl; lia|].
  exact (swap_out_below_reserve pool_default true 1000000 p' r 1 Ht H ltac:(simpl; lia)).
Defined.

(** X15: on a pool with at least one tier and valid tiers, the aggregate
    [amt_out] of a successful swap is strictly negative (the sign
    convention of [calc_amt_from_sqrt_p] as the code computes it). *)
Theorem swap_amt_out_negative (p : Pool) (tok : bool) (a : R) (p' : Pool)
  (r : SwapResult) :
  pool_valid p -> swap p tok a = (p', Ok r) -> amt_out r < 0.
Proof.
  intros [Ht Hn] H; pose proof Ht as (Hs & _).
  destruct (swap_Ok_nth _ _ _ _ _ H)
    as (mask & Hc & Ha & _ & Hlm & Hla & _ & _ & _ & _ & Hin & _).
  destruct (swap_Ok_out _ _ _ _ _ H) as (mask' & Hc' & Hlo & _ & Hout & Hao & _).
  rewrite Hc in Hc'; injection Hc' as <-.
  destruct (calc_tier_amts_in_sum p tok a _ _ Hs (tier_lsg_pos p Ht) Hn Hc) as [Hsum _].
  destruct (msum_pos_entry mask (amts_in r) ltac:(lra)) as (i0 & Ei0 & Hi0).
  pose proof (nth_mask_lt _ _ Ei0) as Hi0l; rewrite Hlm in Hi0l.
  (* every active output is <= 0, the one of tier i0 is < 0 *)
  assert (Hle : forall i, (i < size p)%nat -> nth i (amts_out r) 0 <= 0).
  { intros i Hi.
    destruct (swap_tier_out p tok a p' r i Ht H Hi) as (Hp & Hl & Hg & Hnn & _).
    assert (Hf : 0 <= nth i (amts_in r) 0 * nth i (sqrt_gamma_arr p) 0 ^ 2)
      by (apply Rmult_le_pos; auto; apply pow_le; lra).
    rewrite (Hout i Hi); destruct (nth i mask false); [|lra].
    exact (proj1 (tier_out_bounds tok _ _ _ Hp Hl Hf)). }
  assert (Hlt : nth i0 (amts_out r) 0 < 0).
  { destruct (swap_tier_out p tok a p' r i0 Ht H Hi0l) as (Hp & Hl & Hg & Hnn & _).
    assert (Hf : 0 < nth i0 (amts_in r) 0 * nth i0 (sqrt_gamma_arr p) 0 ^ 2)
      by (apply Rmult_lt_0_compat; auto; apply pow_lt; lra).
    rewrite (Hout i0 Hi0l), Ei0.
    exact (proj1 (proj2 (tier_out_bounds tok _ _ _ Hp Hl (Rlt_le _ _ Hf)) Hf)). }
  assert (Hneg : msum mask (amts_out r) < msum mask (repeat 0 (size p))).
  { clear -Hle Hlt Ei0 Hlm Hlo.
    revert Hle Hlt Ei0 Hlm Hlo; generalize (amts_out r) as xs, (size p) as n.
    revert i0; induction mask as [|b m IH]; intros i0 xs n Hle Hlt Ei0 Hlm Hlo;
      [destruct i0; discriminate|].
    destruct n as [|n]; [discriminate|]; destruct xs as [|x xs]; [discriminate|].
    simpl in *.
    assert (Hle' : forall i, (i < n)%nat -> nth i xs 0 <= 0)
      by (intros i Hi; apply (Hle (S i)); lia).
    assert (Htail : msum m xs <= 0).
    { assert (msum m xs <= 0 * msum m (repeat 0 n)).
      { apply msum_le_scale; [rewrite repeat_length; lia | lia |].
        intros i E; rewrite nth_repeat.
        destruct (Nat.lt_ge_cases i n); [specialize (Hle' i H); lra|].
        rewrite nth_overflow by lia; lra. }
      lra. }
    assert (Hz : msum m (repeat 0 n) = 0).
    { clear; revert n; induction m as [|c m IH]; destruct n; simpl; auto.
      rewrite IH; destruct c; ring. }
    rewrite Hz.
    destruct i0 as [|i0].
    - subst b; lra.
    - assert (msum m xs < 0).
      { specialize (IH i0 xs n Hle' Hlt Ei0 ltac:(lia) ltac:(lia)); lra. }
      assert ((if b then x else 0) <= 0)
        by (destruct b; [apply (Hle 0%nat); lia | lra]).
      destruct b; lra. }
  assert (Hz : msum mask (repeat 0 (size p)) = 0).
  { clear; generalize (size p) as n; induction mask as [|c m IH]; destruct n;
      simpl; auto. rewrite IH; destruct c; ring. }
  lra.
Qed.

Lemma swap_amt_out_negative_witness :
  exists p' r,
    pool_valid pool_default /\ swap pool_default false 1000 = (p', Ok r) /\
    amt_out r < 0.
Proof.
  pose proof pool_default_valid as Hv; pose proof Hv as [[Hs _] _].
  destruct (swap_succeeds pool_default false 1000 Hs ltac:(lra)) as (p' & r & H).
  exists p', r; split; [exact Hv|]; split; [exact H|].
  exact (swap_amt_out_negative pool_default false 1000 p' r Hv H).
Defined.
